(** * xcb-util-xrm: the resource matcher and the public lookup

    A shallow embedding of [src/match.c] (alignment of a database entry
    against a query, comparison of match records, selection of the best
    entry) and of [src/resource.c] (the public lookup), together with the
    properties of the matching engine stated in the specification.

    Conventions of the embedding:
    - a [TAILQ] of components or entries is a [list]; a cursor into the queue
      is the remaining suffix, the [NULL] cursor is [[]];
    - a C string is a [string], a nullable [const char *] an [option string];
    - the [flags] array of a match record is a [list Z] of the length it was
      allocated with, every cell a bit set;
    - a function returning [SUCCESS] or [-FAILURE] and filling an out
      parameter returns an [option]; allocation failures ([calloc], [strdup])
      are not modelled. *)

From Stdlib Require Import ZArith Ascii String Bool Lia.
From stdpp Require Import base strings list.

Local Open Scope Z_scope.

(** ** Entries and components (as used by [match.c]) *)

Inductive xcb_xrm_binding_type_t := BT_TIGHT | BT_LOOSE.

Inductive xcb_xrm_component_type_t := CT_NORMAL | CT_WILDCARD.

Record xcb_xrm_component_t := mk_component {
  type : xcb_xrm_component_type_t;
  binding_type : xcb_xrm_binding_type_t;
  name : string
}.

Record xcb_xrm_entry_t := mk_entry {
  components : list xcb_xrm_component_t;
  value : string
}.

(** A database is the queue of its entries, in insertion order. *)
Definition xcb_xrm_database_t := list xcb_xrm_entry_t.

(** Modelled from the spec: [xcb_xrm_entry_num_components] lives in
    [entry.c], which is not among the sources; it counts the components of
    an entry. *)
Definition xcb_xrm_entry_num_components (entry : xcb_xrm_entry_t) : nat :=
  length (components entry).

(** ** Match flags *)

(** Modelled from the spec: the enumeration [xcb_xrm_match_flags_t] is
    declared in the current [match.h], which is not among the sources.  The
    five per-position flags are the distinct bits of a small packed bit
    set. *)
Definition MF_NAME : Z := Z.shiftl 1 1.
Definition MF_CLASS : Z := Z.shiftl 1 2.
Definition MF_WILDCARD : Z := Z.shiftl 1 3.
Definition MF_SKIPPED : Z := Z.shiftl 1 4.
Definition MF_PRECEDING_LOOSE : Z := Z.shiftl 1 5.

(** The C truth value of [flags & flag]. *)
Definition has_flag (flags flag : Z) : bool := negb (Z.land flags flag =? 0).

Record xcb_xrm_match_t := mk_match {
  entry : option xcb_xrm_entry_t;
  flags : list Z
}.

(** [calloc] zeroes the flag array. *)
Definition __match_new (length : nat) : xcb_xrm_match_t :=
  {| entry := None; flags := replicate length 0 |}.

(** ** Alignment of one entry: [__match_matches] *)

(** The local variables of [__match_matches]; [m_flags] is [match->flags]. *)
Record match_state := mk_state {
  cur_comp_name : list xcb_xrm_component_t;
  cur_comp_class : list xcb_xrm_component_t;
  cur_comp_db : list xcb_xrm_component_t;
  i : nat;
  m_flags : list Z
}.

(** The [ADVANCE] macro: step a cursor unless it is [NULL]. *)
Definition ADVANCE (cursor : list xcb_xrm_component_t) : list xcb_xrm_component_t :=
  tail cursor.

Definition is_NULL {A} (cursor : list A) : bool :=
  match cursor with [] => true | _ => false end.

Definition loop_cond (use_class : bool) (st : match_state) : bool :=
  negb (is_NULL (cur_comp_name st))
  && (negb use_class || negb (is_NULL (cur_comp_class st)))
  && negb (is_NULL (cur_comp_db st)).

(** What one pass through the loop body does: it returns [-FAILURE] from
    the function, or falls through to the loop test with a new state. *)
Inductive body_result :=
| Return_FAILURE
| Next (st : match_state).

Definition strcmp_eq (a b : string) : bool := String.eqb a b.

Definition loop_body (use_class : bool) (st : match_state) : body_result :=
  match cur_comp_name st, cur_comp_db st with
  | cn :: _, cd :: _ =>
      let flags0 :=
        match binding_type cd with
        | BT_LOOSE => <[i st := MF_PRECEDING_LOOSE]> (m_flags st)
        | BT_TIGHT => m_flags st
        end in
      let matched flag :=
        Next {| cur_comp_name := ADVANCE (cur_comp_name st);
                cur_comp_class := ADVANCE (cur_comp_class st);
                cur_comp_db := ADVANCE (cur_comp_db st);
                i := S (i st);
                m_flags := alter (λ f, Z.lor f flag) (i st) flags0 |} in
      match type cd with
      | CT_NORMAL =>
          if strcmp_eq (name cd) (name cn) then matched MF_NAME
          else if use_class
                  && match cur_comp_class st with
                     | cc :: _ => strcmp_eq (name cd) (name cc)
                     | [] => false
                     end
          then matched MF_CLASS
          else
            match binding_type cd with
            | BT_TIGHT => Return_FAILURE
            | BT_LOOSE =>
                Next {| cur_comp_name := ADVANCE (cur_comp_name st);
                        cur_comp_class := ADVANCE (cur_comp_class st);
                        cur_comp_db := cur_comp_db st;
                        i := S (i st);
                        m_flags :=
                          alter (λ f, Z.lor f MF_SKIPPED) (i st)
                            (alter (λ f, Z.land f (Z.lnot MF_PRECEDING_LOOSE))
                               (i st) flags0) |}
            end
      | CT_WILDCARD => matched MF_WILDCARD
      end
  | _, _ => Next st
  end.

(** How the loop is left: by a [return -FAILURE] in its body, or because
    the loop test failed; either way with the state reached. *)
Inductive loop_result :=
| Aborted (st : match_state)
| Exited (st : match_state).

(** The [while] loop.  Every pass that does not return advances
    [cur_comp_name], so the query's remaining names bound the number of
    passes; [match_loop_unfold] below shows that this is the loop. *)
Fixpoint run_loop (use_class : bool) (names : list xcb_xrm_component_t)
    (st : match_state) : loop_result :=
  if loop_cond use_class st then
    match names with
    | [] => Exited st
    | _ :: names' =>
        match loop_body use_class st with
        | Return_FAILURE => Aborted st
        | Next st' => run_loop use_class names' st'
        end
    end
  else Exited st.

Definition match_loop (use_class : bool) (st : match_state) : loop_result :=
  run_loop use_class (cur_comp_name st) st.

Definition match_init (db_entry query_name : xcb_xrm_entry_t)
    (query_class : option xcb_xrm_entry_t) (m : xcb_xrm_match_t) : match_state :=
  {| cur_comp_name := components query_name;
     cur_comp_class :=
       match query_class with
       | Some qc => components qc
       | None => []
       end;
     cur_comp_db := components db_entry;
     i := 0;
     m_flags := flags m |}.

(** [bool use_class = (query_class != NULL)]. *)
Definition use_class_of (query_class : option xcb_xrm_entry_t) : bool :=
  if query_class is Some _ then true else false.

(** [Some] of the filled match record for [SUCCESS], [None] for
    [-FAILURE] (the caller then frees the record). *)
Definition __match_matches (db_entry query_name : xcb_xrm_entry_t)
    (query_class : option xcb_xrm_entry_t) (m : xcb_xrm_match_t)
  : option xcb_xrm_match_t :=
  let use_class := use_class_of query_class in
  match match_loop use_class (match_init db_entry query_name query_class m) with
  | Aborted _ => None
  | Exited st =>
      if is_NULL (cur_comp_db st) && is_NULL (cur_comp_name st)
         && (negb use_class || is_NULL (cur_comp_class st))
      then Some {| entry := Some db_entry; flags := m_flags st |}
      else None
  end.

(** ** Comparison of two match records: [__match_compare] *)

(** One pass through the body of the [for] loop: [true] when one of the
    four [return SUCCESS] statements is taken. *)
Definition compare_at (mt_best mt_candidate : Z) : bool :=
  (* Precedence rule #1 *)
  (has_flag mt_best MF_SKIPPED
   && (has_flag mt_candidate MF_NAME || has_flag mt_candidate MF_CLASS
       || has_flag mt_candidate MF_WILDCARD))
  (* Precedence rule #2 *)
  || ((has_flag mt_best MF_CLASS || has_flag mt_best MF_WILDCARD)
      && has_flag mt_candidate MF_NAME)
  || (has_flag mt_best MF_WILDCARD && has_flag mt_candidate MF_CLASS)
  (* Precedence rule #3 *)
  || (has_flag mt_best MF_PRECEDING_LOOSE
      && negb (has_flag mt_candidate MF_PRECEDING_LOOSE)).

(** The [for] loop from index [i], with [n] passes left. *)
Fixpoint compare_from (n i : nat) (best candidate : list Z) : bool :=
  match n with
  | O => false
  | S n' =>
      if compare_at (best !!! i) (candidate !!! i) then true
      else compare_from n' (S i) best candidate
  end.

(** [true] for [SUCCESS] (the candidate replaces the best match), [false]
    for [-FAILURE]. *)
Definition __match_compare (length : nat) (best candidate : xcb_xrm_match_t) : bool :=
  compare_from length 0 (flags best) (flags candidate).

(** ** Selection of the best entry: [xcb_xrm_match] *)

(** One pass through the loop over the database entries. *)
Definition match_step (num : nat) (query_name : xcb_xrm_entry_t)
    (query_class : option xcb_xrm_entry_t)
    (best_match : option xcb_xrm_match_t) (cur_entry : xcb_xrm_entry_t)
  : option xcb_xrm_match_t :=
  match __match_matches cur_entry query_name query_class (__match_new num) with
  | Some cur_match =>
      match best_match with
      | None => Some cur_match
      | Some best =>
          if __match_compare num best cur_match then Some cur_match
          else Some best
      end
  | None => best_match
  end.

(** The loop over the entries still to be visited, entered with the best
    match found so far. *)
Definition entries_loop (query_name : xcb_xrm_entry_t)
    (query_class : option xcb_xrm_entry_t)
    (best_match : option xcb_xrm_match_t) (entries : list xcb_xrm_entry_t)
  : option xcb_xrm_match_t :=
  let num := xcb_xrm_entry_num_components query_name in
  foldl (match_step num query_name query_class) best_match entries.

Definition best_match_of (database : xcb_xrm_database_t)
    (query_name : xcb_xrm_entry_t) (query_class : option xcb_xrm_entry_t)
  : option xcb_xrm_match_t :=
  entries_loop query_name query_class None database.

(** The value copied into [resource->value], or [None] for [-FAILURE]. *)
Definition xcb_xrm_match (database : xcb_xrm_database_t)
    (query_name : xcb_xrm_entry_t) (query_class : option xcb_xrm_entry_t)
  : option string :=
  match best_match_of database query_name query_class with
  | Some best_match => value <$> entry best_match
  | None => None
  end.

(** ** The public lookup: [resource.c] *)

Definition strlen (s : string) : nat := String.length s.

Section Resource.

(** [xcb_xrm_entry_parse str &entry no_wildcards] is defined in
    [entry.c], which is not among the sources: the lookup is modelled for
    an arbitrary parser, [None] standing for a negative return value. *)
Variable xcb_xrm_entry_parse : string → bool → option xcb_xrm_entry_t.

(** [Some] of [resource->value] for [SUCCESS], [None] for a negative
    return value.  A [NULL] database pointer is [None]. *)
Definition __resource_get (database : option xcb_xrm_database_t)
    (res_name res_class : option string) : option string :=
  match database with
  | None => None
  | Some db =>
      if is_NULL db then None
      else
        match res_name with
        | None => None
        | Some res_name =>
            match xcb_xrm_entry_parse res_name true with
            | None => None
            | Some query_name =>
                match res_class with
                | Some res_class =>
                    if bool_decide (0 < strlen res_class)%nat then
                      match xcb_xrm_entry_parse res_class true with
                      | None => None
                      | Some query_class =>
                          if bool_decide (xcb_xrm_entry_num_components query_name
                                          ≠ xcb_xrm_entry_num_components query_class)
                          then None
                          else xcb_xrm_match db query_name (Some query_class)
                      end
                    else xcb_xrm_match db query_name None
                | None => xcb_xrm_match db query_name None
                end
            end
        end
  end.

(** The caller's copy of the value, or [None] for [NULL]. *)
Definition xcb_xrm_resource_get_string (database : option xcb_xrm_database_t)
    (res_name res_class : option string) : option string :=
  __resource_get database res_name res_class.

End Resource.

(** ** The query parser *)

(** Modelled from the spec: the characters of a name, [[A-Za-z0-9_-]]. *)
Definition is_name_char (c : ascii) : bool :=
  let n := nat_of_ascii c in
  ((65 <=? n) && (n <=? 90) || (97 <=? n) && (n <=? 122)
   || (48 <=? n) && (n <=? 57) || (n =? 95) || (n =? 45))%nat.

(** Modelled from the spec: the dotted segments of a query string; [seg]
    is the segment being read.  [None] on an empty string, an empty
    segment, or a character that is not a name character (so also on [?]
    and [*]). *)
Fixpoint query_segments (s : string) (seg : string) : option (list string) :=
  match s with
  | EmptyString => if String.eqb seg EmptyString then None else Some [seg]
  | String c s' =>
      if Ascii.eqb c "."%char then
        if String.eqb seg EmptyString then None
        else cons seg <$> query_segments s' EmptyString
      else if is_name_char c then query_segments s' (seg ++ String c EmptyString)
      else None
  end.

(** Modelled from the spec: the query mode of [xcb_xrm_entry_parse]
    ([entry.c] is not among the sources).  A query string is a dotted
    sequence of names over [[A-Za-z0-9_-]]; every component is a normal
    name with a tight binding; the parse fails on empty strings, wildcards,
    empty segments between dots and illegal characters.  A query has no
    value. *)
Definition query_parse (str : string) (no_wildcards : bool) : option xcb_xrm_entry_t :=
  (λ segs, {| components := mk_component CT_NORMAL BT_TIGHT <$> segs; value := EmptyString |})
    <$> query_segments str EmptyString.

(** The lookup with the query parser of the specification. *)
Definition lookup (database : xcb_xrm_database_t) (res_name : string)
    (res_class : option string) : option string :=
  xcb_xrm_resource_get_string query_parse (Some database) (Some res_name) res_class.

(** Database entries, written as the entry parser hands them over. *)
Definition tight (n : string) : xcb_xrm_component_t := mk_component CT_NORMAL BT_TIGHT n.
Definition loose (n : string) : xcb_xrm_component_t := mk_component CT_NORMAL BT_LOOSE n.
Definition tight_any : xcb_xrm_component_t := mk_component CT_WILDCARD BT_TIGHT EmptyString.
Definition loose_any : xcb_xrm_component_t := mk_component CT_WILDCARD BT_LOOSE EmptyString.

(** ** Value conversion *)

(** Modelled from the spec: the minimum representable [long], the sentinel
    of the integer conversion (a 64-bit [long]; [convert.c] and [limits.h]
    are not among the sources). *)
Definition LONG_MIN : Z := - 2 ^ 63.

(** Modelled from the spec: the largest [long] of that width. *)
Definition LONG_MAX : Z := 2 ^ 63 - 1.

(** Modelled from the spec: the value of a base-10 digit. *)
Definition digit_value (c : ascii) : option Z :=
  let n := nat_of_ascii c in
  if ((48 <=? n) && (n <=? 57))%nat then Some (Z.of_nat n - 48) else None.

(** Modelled from the spec: a non-empty run of decimal digits that fills
    the whole string (full-string consumption). *)
Fixpoint parse_digits (s : string) (acc : Z) : option Z :=
  match s with
  | EmptyString => None
  | String c EmptyString => (λ d, 10 * acc + d) <$> digit_value c
  | String c s' =>
      match digit_value c with
      | Some d => parse_digits s' (10 * acc + d)
      | None => None
      end
  end.

(** Modelled from the spec: a decimal numeral with an optional sign. *)
Definition parse_signed (s : string) : option Z :=
  match s with
  | String "-"%char s' => Z.opp <$> parse_digits s' 0
  | String "+"%char s' => parse_digits s' 0
  | _ => parse_digits s 0
  end.

(** Modelled from the spec: signed base-10 parsing with full-string
    consumption; a value converts to a [long] when the whole string is a
    signed decimal numeral that a [long] can hold. *)
Definition parse_long (s : string) : option Z :=
  match parse_signed s with
  | Some n => if (LONG_MIN <=? n) && (n <=? LONG_MAX) then Some n else None
  | None => None
  end.

(** Modelled from the spec: [xcb_xrm_convert_to_long] is declared in
    [xcb_xrm.h] and defined in [convert.c], which is not among the sources.
    If the value is [NULL] or cannot be converted to a [long], [LONG_MIN] is
    returned. *)
Definition xcb_xrm_convert_to_long (value : option string) : Z :=
  match value with
  | None => LONG_MIN
  | Some s => default LONG_MIN (parse_long s)
  end.

(** Modelled from the spec: the lower-case form of a letter, for the
    case-insensitive matching of the boolean words. *)
Definition to_lower (c : ascii) : ascii :=
  let n := nat_of_ascii c in
  if ((65 <=? n) && (n <=? 90))%nat then ascii_of_nat (n + 32) else c.

(** Modelled from the spec: case-insensitive equality of two strings. *)
Fixpoint strcasecmp_eq (a b : string) : bool :=
  match a, b with
  | EmptyString, EmptyString => true
  | String x a', String y b' => Ascii.eqb (to_lower x) (to_lower y) && strcasecmp_eq a' b'
  | _, _ => false
  end.

(** Modelled from the spec: the words for true. *)
Definition is_true_word (s : string) : bool :=
  strcasecmp_eq s "true" || strcasecmp_eq s "on" || strcasecmp_eq s "yes".

(** Modelled from the spec: the words for false. *)
Definition is_false_word (s : string) : bool :=
  strcasecmp_eq s "false" || strcasecmp_eq s "off" || strcasecmp_eq s "no".

(** Modelled from the spec: [xcb_xrm_convert_to_bool] is declared in
    [xcb_xrm.h] and defined in [convert.c], which is not among the sources.
    The header documents its steps: [NULL] gives false; a value that
    converts to a [long] gives the truthiness of the number; one of
    true/on/yes gives true; one of false/off/no gives false; anything else
    gives false. *)
Definition xcb_xrm_convert_to_bool (value : option string) : bool :=
  match value with
  | None => false
  | Some s =>
      match parse_long s with
      | Some n => negb (n =? 0)
      | None =>
          if is_true_word s then true
          else if is_false_word s then false
          else false
      end
  end.

(** ** Vocabulary of the specification *)

(** A position that matched: [NAME | CLASS | WILDCARD]. *)
Definition matched_flag (f : Z) : bool :=
  has_flag f MF_NAME || has_flag f MF_CLASS || has_flag f MF_WILDCARD.

(** Precedence rule 1: a position that matched beats a [SKIPPED] one. *)
Definition rule1 (winner loser : Z) : bool :=
  matched_flag winner && has_flag loser MF_SKIPPED.

(** Precedence rule 2: [NAME] beats [CLASS] and [WILDCARD], [CLASS] beats
    [WILDCARD]. *)
Definition rule2 (winner loser : Z) : bool :=
  (has_flag winner MF_NAME && (has_flag loser MF_CLASS || has_flag loser MF_WILDCARD))
  || (has_flag winner MF_CLASS && has_flag loser MF_WILDCARD).

(** Precedence rule 3: a position without [PRECEDING_LOOSE] beats one with
    it. *)
Definition rule3 (winner loser : Z) : bool :=
  negb (has_flag winner MF_PRECEDING_LOOSE) && has_flag loser MF_PRECEDING_LOOSE.

(** Rules 1-3 distinguish the two flag sets in favour of [winner]. *)
Definition beats (winner loser : Z) : bool :=
  rule1 winner loser || rule2 winner loser || rule3 winner loser.

(** A position at which rules 1-3 favour one of the two records. *)
Definition decisive (a b : Z) : bool := beats a b || beats b a.

(** Two records that rules 1-3 do not tell apart at any of the [n]
    positions. *)
Definition equivalent_records (n : nat) (a b : list Z) : Prop :=
  ∀ p, (p < n)%nat → decisive (a !!! p) (b !!! p) = false.

(** The match record of an entry against a query, if the entry aligns. *)
Definition record_of (query_name : xcb_xrm_entry_t)
    (query_class : option xcb_xrm_entry_t) (e : xcb_xrm_entry_t) : option (list Z) :=
  flags <$> __match_matches e query_name query_class
              (__match_new (xcb_xrm_entry_num_components query_name)).

(** An entry with a tight binding everywhere whose components are the
    components of the query name, position by position. *)
Definition exact_tight (e query_name : xcb_xrm_entry_t) : Prop :=
  length (components e) = length (components query_name)
  ∧ ∀ p d, components e !! p = Some d →
      type d = CT_NORMAL ∧ binding_type d = BT_TIGHT
      ∧ name <$> (components query_name !! p) = Some (name d).

(** A record that relies on a [SKIPPED] or a [WILDCARD] position. *)
Definition relies_on_skip_or_wildcard (m : list Z) : Prop :=
  ∃ p f, m !! p = Some f ∧ (has_flag f MF_SKIPPED = true ∨ has_flag f MF_WILDCARD = true).

(** One pass of the alignment loop leads from [st] to [st']. *)
Definition loop_pass (use_class : bool) (st st' : match_state) : Prop :=
  loop_cond use_class st = true ∧ loop_body use_class st = Next st'.

(** [st'] is reached from [st] after some passes of the loop. *)
Inductive reaches (use_class : bool) : match_state → match_state → Prop :=
| reaches_refl st : reaches use_class st st
| reaches_pass st st' st'' :
    loop_pass use_class st st' → reaches use_class st' st'' →
    reaches use_class st st''.

(** The state in which the loop is left. *)
Definition final_state (r : loop_result) : match_state :=
  match r with Aborted st | Exited st => st end.

(** The entry component and the query components under the cursors. *)
Definition at_cursors (use_class : bool) (st : match_state)
    (cd cn : xcb_xrm_component_t) : Prop :=
  loop_cond use_class st = true
  ∧ head (cur_comp_db st) = Some cd ∧ head (cur_comp_name st) = Some cn.

(** The entry component under the cursor equals the query name, or the
    query class when there is one, at the current position. *)
Definition literal_match (use_class : bool) (st : match_state)
    (cd cn : xcb_xrm_component_t) : bool :=
  strcmp_eq (name cd) (name cn)
  || (use_class
      && match head (cur_comp_class st) with
         | Some cc => strcmp_eq (name cd) (name cc)
         | None => false
         end).

(** The bit a binding contributes to the position its component is tried
    at. *)
Definition binding_bit (cd : xcb_xrm_component_t) : Z :=
  match binding_type cd with
  | BT_LOOSE => MF_PRECEDING_LOOSE
  | BT_TIGHT => 0
  end.

(** The ways a pass of the loop can treat the entry component [cd] under
    the cursor: a match by name, by class or by wildcard, a loose skip, a
    tight mismatch. *)
Inductive pass_kind := ByName | ByClass | ByWildcard | BySkip | ByMismatch.

Definition kind_of_pass (use_class : bool) (st : match_state)
    (cd cn : xcb_xrm_component_t) : pass_kind :=
  match type cd with
  | CT_WILDCARD => ByWildcard
  | CT_NORMAL =>
      if strcmp_eq (name cd) (name cn) then ByName
      else if literal_match use_class st cd cn then ByClass
      else match binding_type cd with
           | BT_LOOSE => BySkip
           | BT_TIGHT => ByMismatch
           end
  end.

(** The invariant of the alignment loop for a query of [n] components:
    [i] counts the query positions consumed, and the cells from [i] on are
    still as [calloc] left them. *)
Definition loop_inv (n : nat) (st : match_state) : Prop :=
  (i st + length (cur_comp_name st) = n)%nat
  ∧ length (m_flags st) = n
  ∧ ∀ p, (i st ≤ p < n)%nat → m_flags st !! p = Some 0.

(** The flag set a pass of the given kind leaves in the cell of the
    position it was made at. *)
Definition cell_of_pass (k : pass_kind) (cd : xcb_xrm_component_t) : Z :=
  match k with
  | ByName => Z.lor (binding_bit cd) MF_NAME
  | ByClass => Z.lor (binding_bit cd) MF_CLASS
  | ByWildcard => Z.lor (binding_bit cd) MF_WILDCARD
  | BySkip => MF_SKIPPED
  | ByMismatch => 0
  end.

(** The flag sets a cell of a match record can hold. *)
Definition cell_values : list Z :=
  [0; MF_NAME; MF_CLASS; MF_WILDCARD; MF_SKIPPED;
   Z.lor MF_PRECEDING_LOOSE MF_NAME; Z.lor MF_PRECEDING_LOOSE MF_CLASS;
   Z.lor MF_PRECEDING_LOOSE MF_WILDCARD].

(** A query whose class, when there is one, has as many components as its
    name. *)
Definition query_wf (query_name : xcb_xrm_entry_t)
    (query_class : option xcb_xrm_entry_t) : Prop :=
  ∀ qc, query_class = Some qc →
        xcb_xrm_entry_num_components qc = xcb_xrm_entry_num_components query_name.

(** The class query the lookup hands to the matcher: none for a [NULL] or
    empty class string. *)
Definition class_query (parse : string → bool → option xcb_xrm_entry_t)
    (res_class : option string) : option xcb_xrm_entry_t :=
  match res_class with
  | Some c => if bool_decide (0 < strlen c)%nat then parse c true else None
  | None => None
  end.

Definition database_empty (database : option xcb_xrm_database_t) : Prop :=
  database = None ∨ database = Some [].

Definition name_unparsed (parse : string → bool → option xcb_xrm_entry_t)
    (res_name : option string) : Prop :=
  res_name = None ∨ ∃ s, res_name = Some s ∧ parse s true = None.

Definition class_unparsed (parse : string → bool → option xcb_xrm_entry_t)
    (res_class : option string) : Prop :=
  ∃ c, res_class = Some c ∧ (0 < strlen c)%nat ∧ parse c true = None.

Definition length_mismatch (parse : string → bool → option xcb_xrm_entry_t)
    (res_name res_class : option string) : Prop :=
  ∃ s c qn qc,
    res_name = Some s ∧ res_class = Some c ∧ (0 < strlen c)%nat
    ∧ parse s true = Some qn ∧ parse c true = Some qc
    ∧ xcb_xrm_entry_num_components qn ≠ xcb_xrm_entry_num_components qc.

Definition no_entry_aligns (parse : string → bool → option xcb_xrm_entry_t)
    (database : option xcb_xrm_database_t) (res_name res_class : option string) : Prop :=
  ∃ db s qn,
    database = Some db ∧ res_name = Some s ∧ parse s true = Some qn
    ∧ ∀ e, e ∈ db → record_of qn (class_query parse res_class) e = None.

(** The cases of absence as the specification lists them: empty database,
    unparsable name, class of another length, no aligning entry. *)
Definition listed_absence_cases (parse : string → bool → option xcb_xrm_entry_t)
    (database : option xcb_xrm_database_t) (res_name res_class : option string) : Prop :=
  database_empty database ∨ name_unparsed parse res_name
  ∨ length_mismatch parse res_name res_class
  ∨ no_entry_aligns parse database res_name res_class.

(** The cases of absence of the code: the listed ones and a class string
    that is given and does not parse. *)
Definition absence_cases (parse : string → bool → option xcb_xrm_entry_t)
    (database : option xcb_xrm_database_t) (res_name res_class : option string) : Prop :=
  database_empty database ∨ name_unparsed parse res_name
  ∨ class_unparsed parse res_class
  ∨ length_mismatch parse res_name res_class
  ∨ no_entry_aligns parse database res_name res_class.

(** The steps of the boolean conversion, in their documented order: each
    step applies only when the earlier ones did not. *)
Inductive bool_conversion : option string → bool → Prop :=
| conv_absent : bool_conversion None false
| conv_integer s n :
    parse_long s = Some n → bool_conversion (Some s) (negb (n =? 0))
| conv_true_word s :
    parse_long s = None → is_true_word s = true → bool_conversion (Some s) true
| conv_false_word s :
    parse_long s = None → is_true_word s = false → is_false_word s = true →
    bool_conversion (Some s) false
| conv_otherwise s :
    parse_long s = None → is_true_word s = false → is_false_word s = false →
    bool_conversion (Some s) false.

(** ** Sample databases *)

(** [*foreground: black] and [xterm*foreground: white]. *)
Definition db_foreground : xcb_xrm_database_t :=
  [ {| components := [loose "foreground"]; value := "black" |};
    {| components := [tight "xterm"; loose "foreground"]; value := "white" |} ].

(** [a.?.c: 1] and [*b.c: 2]. *)
Definition entry_a_any_c : xcb_xrm_entry_t :=
  {| components := [tight "a"; tight_any; tight "c"]; value := "1" |}.
Definition entry_any_b_c : xcb_xrm_entry_t :=
  {| components := [loose "b"; tight "c"]; value := "2" |}.

(** [Xft.dpi: 96]. *)
Definition db_dpi : xcb_xrm_database_t :=
  [ {| components := [tight "Xft"; tight "dpi"]; value := "96" |} ].

(** The query [a.b.c] as the query parser hands it over. *)
Definition query_a_b_c : xcb_xrm_entry_t :=
  {| components := [tight "a"; tight "b"; tight "c"]; value := EmptyString |}.

(** [p] is the first of the [n] positions at which rules 1-3 distinguish
    the two records. *)
Definition first_decisive_position (n : nat) (a b : list Z) (p : nat) : Prop :=
  (p < n)%nat ∧ decisive (a !!! p) (b !!! p) = true
  ∧ ∀ q, (q < p)%nat → decisive (a !!! q) (b !!! q) = false.

(** ** The typed lookups: [resource.c] *)

Section TypedResource.

Variable xcb_xrm_entry_parse : string → bool → option xcb_xrm_entry_t.

(** [xcb_xrm_resource_get_long]: the string lookup followed by the integer
    conversion. *)
Definition xcb_xrm_resource_get_long (database : option xcb_xrm_database_t)
    (res_name res_class : option string) : Z :=
  let str := xcb_xrm_resource_get_string xcb_xrm_entry_parse database res_name res_class in
  xcb_xrm_convert_to_long str.

(** [xcb_xrm_resource_get_bool]: the string lookup followed by the boolean
    conversion. *)
Definition xcb_xrm_resource_get_bool (database : option xcb_xrm_database_t)
    (res_name res_class : option string) : bool :=
  let str := xcb_xrm_resource_get_string xcb_xrm_entry_parse database res_name res_class in
  xcb_xrm_convert_to_bool str.

End TypedResource.

(** ** The alignment as a recursion over the query positions *)

(** The components the class cursor starts at: none for a [NULL] class. *)
Definition class_components (query_class : option xcb_xrm_entry_t)
  : list xcb_xrm_component_t :=
  match query_class with
  | Some qc => components qc
  | None => []
  end.

(** [kind_of_pass] read from the cursors alone. *)
Definition kind_at (use_class : bool) (cd cn : xcb_xrm_component_t)
    (cls : list xcb_xrm_component_t) : pass_kind :=
  match type cd with
  | CT_WILDCARD => ByWildcard
  | CT_NORMAL =>
      if strcmp_eq (name cd) (name cn) then ByName
      else if use_class
              && match cls with
                 | cc :: _ => strcmp_eq (name cd) (name cc)
                 | [] => false
                 end
      then ByClass
      else match binding_type cd with
           | BT_LOOSE => BySkip
           | BT_TIGHT => ByMismatch
           end
  end.

(** The record the loop of [__match_matches] leaves for the cells from the
    current position on, as a function of the three cursors;
    [align_match_loop] below shows that the loop computes it. *)
Fixpoint align (use_class : bool) (names cls db : list xcb_xrm_component_t)
  : option (list Z) :=
  match names with
  | [] => if is_NULL db && (negb use_class || is_NULL cls) then Some [] else None
  | cn :: names' =>
      if use_class && is_NULL cls then None
      else
        match db with
        | [] => None
        | cd :: db' =>
            match kind_at use_class cd cn cls with
            | ByMismatch => None
            | BySkip => cons MF_SKIPPED <$> align use_class names' (tail cls) db
            | ByName => cons (cell_of_pass ByName cd) <$> align use_class names' (tail cls) db'
            | ByClass => cons (cell_of_pass ByClass cd) <$> align use_class names' (tail cls) db'
            | ByWildcard =>
                cons (cell_of_pass ByWildcard cd) <$> align use_class names' (tail cls) db'
            end
        end
  end.

(** The flag array [__match_matches] accepts, given how its loop was
    left. *)
Definition accepted (use_class : bool) (r : loop_result) : option (list Z) :=
  match r with
  | Aborted _ => None
  | Exited st =>
      if is_NULL (cur_comp_db st) && is_NULL (cur_comp_name st)
         && (negb use_class || is_NULL (cur_comp_class st))
      then Some (m_flags st)
      else None
  end.

(** The flag sets a cell of an accepted record can hold: one of the four
    kinds, the three match kinds with or without [PRECEDING_LOOSE]. *)
Definition record_cells : list Z :=
  [MF_NAME; MF_CLASS; MF_WILDCARD; MF_SKIPPED;
   Z.lor MF_PRECEDING_LOOSE MF_NAME; Z.lor MF_PRECEDING_LOOSE MF_CLASS;
   Z.lor MF_PRECEDING_LOOSE MF_WILDCARD].

(** An entry component fits a query position: it is a wildcard, or it
    equals the name there, or the class there when the query has one. *)
Definition component_fits (use_class : bool) (cd cn : xcb_xrm_component_t)
    (cls : list xcb_xrm_component_t) : Prop :=
  type cd = CT_WILDCARD ∨ name cd = name cn
  ∨ (use_class = true ∧ ∃ cc, head cls = Some cc ∧ name cd = name cc).

(** The matching relation of the resource manager, in the words of the
    specification: every entry component fits one query position, in
    order; a component with a tight binding sits at the position right
    after the previous component (the first one at position 0), a
    component with a loose binding may leave any number of positions out
    before it; the last component sits at the last position. *)
Inductive spec_aligned (use_class : bool)
  : list xcb_xrm_component_t → list xcb_xrm_component_t →
    list xcb_xrm_component_t → Prop :=
| spec_aligned_done cls : spec_aligned use_class [] [] cls
| spec_aligned_fit cd db cn names cls :
    component_fits use_class cd cn cls →
    spec_aligned use_class db names (tail cls) →
    spec_aligned use_class (cd :: db) (cn :: names) cls
| spec_aligned_skip cd db cn names cls :
    binding_type cd = BT_LOOSE →
    spec_aligned use_class (cd :: db) names (tail cls) →
    spec_aligned use_class (cd :: db) (cn :: names) cls.

(** Two components that a specifier does not tell apart: the same kind,
    the same binding and, for names, the same name. *)
Definition same_component (a b : xcb_xrm_component_t) : Prop :=
  type a = type b ∧ binding_type a = binding_type b
  ∧ (type a = CT_NORMAL → name a = name b).

(** The entry with its value replaced. *)
Definition with_value (f : string → string) (e : xcb_xrm_entry_t) : xcb_xrm_entry_t :=
  {| components := components e; value := f (value e) |}.

(** The match record for an entry and its flags. *)
Definition match_of (e : xcb_xrm_entry_t) (M : list Z) : xcb_xrm_match_t :=
  {| entry := Some e; flags := M |}.

(** [*c: v]. *)
Definition entry_any_c : xcb_xrm_entry_t :=
  {| components := [loose "c"]; value := "v" |}.

(** [x.y: 0], which does not match [a.b.c]. *)
Definition entry_x_y : xcb_xrm_entry_t :=
  {| components := [tight "x"; tight "y"]; value := "0" |}.

(** * Properties *)

(** ** The alignment loop *)

Section Loop.
Variable use_class : bool.

Lemma loop_cond_cursors st :
  loop_cond use_class st = true →
  ∃ cn names cd db,
    cur_comp_name st = cn :: names ∧ cur_comp_db st = cd :: db
    ∧ (use_class = true → ∃ cc cls, cur_comp_class st = cc :: cls).
Proof.
  unfold loop_cond. intros H.
  apply andb_true_iff in H as [H Hdb]. apply andb_true_iff in H as [Hn Hc].
  destruct (cur_comp_name st) as [|cn names]; [discriminate|].
  destruct (cur_comp_db st) as [|cd db]; [discriminate|].
  exists cn, names, cd, db. repeat split.
  intros ->. destruct (cur_comp_class st) as [|cc cls]; [discriminate|]. eauto.
Qed.

(** What a pass leaves alone and what it advances. *)
Lemma loop_pass_frame st st' :
  loop_pass use_class st st' →
  cur_comp_name st' = tail (cur_comp_name st)
  ∧ cur_comp_class st' = tail (cur_comp_class st)
  ∧ (cur_comp_db st' = tail (cur_comp_db st) ∨ cur_comp_db st' = cur_comp_db st)
  ∧ i st' = S (i st)
  ∧ length (m_flags st') = length (m_flags st)
  ∧ ∀ p, p ≠ i st → m_flags st' !! p = m_flags st !! p.
Proof.
  intros [Hc Hb]. destruct (loop_cond_cursors st Hc) as (cn & names & cd & db & Hn & Hd & _).
  unfold loop_body in Hb. rewrite Hn, Hd in Hb.
  assert (Hfr : ∀ fl, fl = m_flags st ∨ fl = <[i st := MF_PRECEDING_LOOSE]> (m_flags st) →
             length fl = length (m_flags st)
             ∧ ∀ p, p ≠ i st → fl !! p = m_flags st !! p).
  { intros fl [->| ->]; [tauto|]. split; [apply length_insert|].
    intros p Hp. apply list_lookup_insert_ne. congruence. }
  assert (H0 : (match binding_type cd with
                | BT_TIGHT => m_flags st
                | BT_LOOSE => <[i st := MF_PRECEDING_LOOSE]> (m_flags st)
                end) = m_flags st
               ∨ (match binding_type cd with
                | BT_TIGHT => m_flags st
                | BT_LOOSE => <[i st := MF_PRECEDING_LOOSE]> (m_flags st)
                end) = <[i st := MF_PRECEDING_LOOSE]> (m_flags st)).
  { destruct (binding_type cd); auto. }
  apply Hfr in H0 as [Hl Hp]. clear Hfr.
  repeat match type of Hb with
         | context [match ?x with _ => _ end] => destruct x eqn:?
         | context [if ?x then _ else _] => destruct x eqn:?
         end;
    try discriminate; inversion Hb; subst st'; simpl;
      rewrite ?Hn, ?Hd; simpl;
      rewrite ?length_alter;
      (repeat split; auto; try congruence;
       intros p Hne; rewrite ?list_lookup_alter_ne by congruence; auto).
Qed.

Lemma match_loop_unfold st :
  match_loop use_class st =
    if loop_cond use_class st then
      match loop_body use_class st with
      | Return_FAILURE => Aborted st
      | Next st' => match_loop use_class st'
      end
    else Exited st.
Proof.
  unfold match_loop.
  destruct (loop_cond use_class st) eqn:Hc.
  - destruct (loop_cond_cursors st Hc) as (cn & names & cd & db & Hn & Hd & _).
    rewrite Hn. simpl. rewrite Hc.
    destruct (loop_body use_class st) as [|st'] eqn:Hb; [reflexivity|].
    destruct (loop_pass_frame st st' (conj Hc Hb)) as (Hn' & _).
    rewrite Hn', Hn. reflexivity.
  - destruct (cur_comp_name st); simpl; rewrite Hc; reflexivity.
Qed.

(** Induction along the passes of the loop. *)
Lemma match_loop_ind (P : match_state → loop_result → Prop) :
  (∀ st, loop_cond use_class st = false → P st (Exited st)) →
  (∀ st, loop_cond use_class st = true →
         loop_body use_class st = Return_FAILURE → P st (Aborted st)) →
  (∀ st st', loop_pass use_class st st' →
             P st' (match_loop use_class st') → P st (match_loop use_class st')) →
  ∀ st, P st (match_loop use_class st).
Proof.
  intros Hexit Habort Hpass st.
  remember (length (cur_comp_name st)) as n eqn:Hn.
  revert st Hn. induction n as [|n IH]; intros st Hn; rewrite match_loop_unfold.
  - destruct (loop_cond use_class st) eqn:Hc; [|by apply Hexit].
    destruct (loop_cond_cursors st Hc) as (cn & names & _ & _ & Hnm & _).
    rewrite Hnm in Hn. discriminate.
  - destruct (loop_cond use_class st) eqn:Hc; [|by apply Hexit].
    destruct (loop_body use_class st) as [|st'] eqn:Hb; [by apply Habort|].
    apply Hpass; [by split|]. apply IH.
    destruct (loop_pass_frame st st' (conj Hc Hb)) as (Hn' & _).
    rewrite Hn'. destruct (cur_comp_name st); simpl in *; lia.
Qed.

Lemma match_loop_pass st st' :
  loop_pass use_class st st' → match_loop use_class st = match_loop use_class st'.
Proof. intros [Hc Hb]. rewrite (match_loop_unfold st), Hc, Hb. reflexivity. Qed.

Lemma match_loop_reaches st st' :
  reaches use_class st st' → match_loop use_class st = match_loop use_class st'.
Proof.
  induction 1 as [|st st' st'' Hp _ IH]; [reflexivity|].
  rewrite (match_loop_pass _ _ Hp). exact IH.
Qed.

Lemma reaches_final st : reaches use_class st (final_state (match_loop use_class st)).
Proof.
  apply (match_loop_ind (λ st r, reaches use_class st (final_state r))).
  - intros. constructor.
  - intros. constructor.
  - intros s s' Hp IH. econstructor; eauto.
Qed.

End Loop.

Section LoopInvariant.
Variable use_class : bool.

Lemma at_cursors_lists st cd cn :
  at_cursors use_class st cd cn →
  ∃ names db, cur_comp_name st = cn :: names ∧ cur_comp_db st = cd :: db.
Proof.
  intros (Hc & Hd & Hn).
  destruct (cur_comp_name st) as [|cn' names]; [discriminate|].
  destruct (cur_comp_db st) as [|cd' db]; [discriminate|].
  simpl in *. inversion Hd; inversion Hn; subst. eauto.
Qed.

(** A pass by kind: what happens to the entry cursor and to the cell of
    the current position. *)
Lemma loop_body_kind n st cd cn :
  loop_inv n st → at_cursors use_class st cd cn →
  match kind_of_pass use_class st cd cn with
  | ByName =>
      ∃ st', loop_body use_class st = Next st'
             ∧ cur_comp_db st' = tail (cur_comp_db st)
             ∧ m_flags st' !! i st = Some (Z.lor (binding_bit cd) MF_NAME)
  | ByClass =>
      ∃ st', loop_body use_class st = Next st'
             ∧ cur_comp_db st' = tail (cur_comp_db st)
             ∧ m_flags st' !! i st = Some (Z.lor (binding_bit cd) MF_CLASS)
  | ByWildcard =>
      ∃ st', loop_body use_class st = Next st'
             ∧ cur_comp_db st' = tail (cur_comp_db st)
             ∧ m_flags st' !! i st = Some (Z.lor (binding_bit cd) MF_WILDCARD)
  | BySkip =>
      ∃ st', loop_body use_class st = Next st'
             ∧ cur_comp_db st' = cur_comp_db st
             ∧ m_flags st' !! i st = Some MF_SKIPPED
  | ByMismatch => loop_body use_class st = Return_FAILURE
  end.
Proof.
  intros (Hi & Hlen & Hzero) Hat.
  destruct (at_cursors_lists _ _ _ Hat) as (names & db & Hn & Hd).
  assert (Hlt : (i st < length (m_flags st))%nat).
  { rewrite Hn in Hi. simpl in Hi. lia. }
  assert (H0 : m_flags st !! i st = Some 0).
  { apply Hzero. lia. }
  assert (Hcell : ∀ flag,
    alter (λ f, Z.lor f flag) (i st)
      (match binding_type cd with
       | BT_TIGHT => m_flags st
       | BT_LOOSE => <[i st := MF_PRECEDING_LOOSE]> (m_flags st)
       end) !! i st = Some (Z.lor (binding_bit cd) flag)).
  { intros flag. rewrite list_lookup_alter_eq. unfold binding_bit.
    destruct (binding_type cd).
    - rewrite H0. reflexivity.
    - rewrite list_lookup_insert_eq by exact Hlt. reflexivity. }
  unfold kind_of_pass, literal_match, loop_body. rewrite Hn, Hd.
  destruct (type cd); [|eexists; split; [reflexivity|]; simpl; auto].
  destruct (strcmp_eq (name cd) (name cn)) eqn:Hs; simpl.
  { eexists; split; [reflexivity|]; simpl; auto. }
  replace (match head (cur_comp_class st) with
           | Some cc => strcmp_eq (name cd) (name cc)
           | None => false
           end)
    with (match cur_comp_class st with
          | cc :: _ => strcmp_eq (name cd) (name cc)
          | [] => false
          end) by (destruct (cur_comp_class st); reflexivity).
  destruct (use_class && _) eqn:Hcl.
  { eexists; split; [reflexivity|]; simpl; auto. }
  destruct (binding_type cd) eqn:Hb; [reflexivity|].
  eexists; split; [reflexivity|]; simpl. split; [auto|].
  rewrite !list_lookup_alter_eq, list_lookup_insert_eq by exact Hlt.
  reflexivity.
Qed.

Lemma loop_inv_pass n st st' :
  loop_inv n st → loop_pass use_class st st' → loop_inv n st'.
Proof.
  intros (Hi & Hlen & Hzero) Hp.
  destruct (loop_cond_cursors use_class st (proj1 Hp)) as (cn & names & _ & _ & Hn & _).
  destruct (loop_pass_frame use_class st st' Hp) as (Hn' & _ & _ & Hi' & Hl' & Hfr).
  rewrite Hn in *. simpl in *.
  repeat split.
  - rewrite Hn', Hi'. lia.
  - congruence.
  - intros p Hp'. rewrite Hfr by lia. apply Hzero. lia.
Qed.

Lemma loop_inv_reaches n st st' :
  loop_inv n st → reaches use_class st st' → loop_inv n st'.
Proof. intros H Hr. induction Hr; eauto using loop_inv_pass. Qed.

(** Cells below [i] are never written again. *)
Lemma reaches_cells_below st st' p :
  reaches use_class st st' → (p < i st)%nat → m_flags st' !! p = m_flags st !! p.
Proof.
  induction 1 as [|st st' st'' Hp _ IH]; intros Hlt; [reflexivity|].
  destruct (loop_pass_frame use_class st st' Hp) as (_ & _ & _ & Hi' & _ & Hfr).
  rewrite IH by lia. apply Hfr. lia.
Qed.

Lemma loop_inv_init db_entry query_name query_class :
  loop_inv (xcb_xrm_entry_num_components query_name)
    (match_init db_entry query_name query_class
       (__match_new (xcb_xrm_entry_num_components query_name))).
Proof.
  unfold loop_inv, match_init, __match_new, xcb_xrm_entry_num_components. simpl.
  repeat split.
  - apply length_replicate.
  - intros p Hp. apply lookup_replicate_2. lia.
Qed.

End LoopInvariant.

Lemma cell_of_pass_values k cd : cell_of_pass k cd ∈ cell_values.
Proof.
  unfold cell_of_pass, binding_bit, cell_values.
  destruct k, (binding_type cd); rewrite !elem_of_cons; simpl; tauto.
Qed.

Lemma cell_values_flags f :
  f ∈ cell_values →
  (has_flag f MF_SKIPPED = true → f = MF_SKIPPED)
  ∧ (has_flag f MF_PRECEDING_LOOSE = true →
     matched_flag f = true ∧ has_flag f MF_SKIPPED = false)
  ∧ (matched_flag f = true → has_flag f MF_SKIPPED = false).
Proof.
  unfold cell_values. rewrite !elem_of_cons, elem_of_nil.
  intros [->|[->|[->|[->|[->|[->|[->|[->|[]]]]]]]]];
    vm_compute; repeat split; congruence.
Qed.

Section Cells.
Variable use_class : bool.

Lemma pass_final_cell n st cd cn :
  loop_inv n st → at_cursors use_class st cd cn →
  m_flags (final_state (match_loop use_class st)) !! i st
  = Some (cell_of_pass (kind_of_pass use_class st cd cn) cd).
Proof.
  intros Hinv Hat. pose proof (loop_body_kind use_class n st cd cn Hinv Hat) as Hk.
  destruct Hat as (Hc & Hat).
  rewrite match_loop_unfold, Hc.
  destruct (kind_of_pass use_class st cd cn); simpl;
    try (destruct Hk as (st' & Hb & _ & Hcell); rewrite Hb;
         rewrite (reaches_cells_below use_class st' _ (i st) (reaches_final use_class st'));
         [exact Hcell|];
         destruct (loop_pass_frame use_class st st' (conj Hc Hb)) as (_ & _ & _ & -> & _);
         lia).
  rewrite Hk. simpl. destruct Hinv as (Hi & _ & Hz). apply Hz.
  destruct (loop_cond_cursors use_class st Hc) as (? & ? & _ & _ & Hn & _).
  rewrite Hn in Hi. simpl in Hi. lia.
Qed.

Lemma cells_pass n st st' :
  loop_inv n st → loop_pass use_class st st' →
  (∀ p f, m_flags st !! p = Some f → f ∈ cell_values) →
  (∀ p f, m_flags st' !! p = Some f → f ∈ cell_values).
Proof.
  intros Hinv Hp Hcells p f Hf.
  destruct (loop_pass_frame use_class st st' Hp) as (_ & _ & _ & _ & _ & Hfr).
  destruct (decide (p = i st)) as [->|Hne].
  - destruct (loop_cond_cursors use_class st (proj1 Hp)) as (cn & ? & cd & ? & Hn & Hd & _).
    assert (Hat : at_cursors use_class st cd cn).
    { split; [exact (proj1 Hp)|]. rewrite Hn, Hd. auto. }
    pose proof (loop_body_kind use_class n st cd cn Hinv Hat) as Hk.
    destruct Hp as [Hc Hb].
    pose proof (cell_of_pass_values (kind_of_pass use_class st cd cn) cd) as Hv.
    destruct (kind_of_pass use_class st cd cn); simpl in Hv;
      try (destruct Hk as (st1 & Hb1 & _ & Hcell); rewrite Hb in Hb1;
           inversion Hb1; subst st1; rewrite Hcell in Hf; inversion Hf; subst f; exact Hv).
    congruence.
  - rewrite Hfr in Hf by exact Hne. eauto.
Qed.

Lemma cells_reaches n st st' :
  loop_inv n st → reaches use_class st st' →
  (∀ p f, m_flags st !! p = Some f → f ∈ cell_values) →
  (∀ p f, m_flags st' !! p = Some f → f ∈ cell_values).
Proof.
  intros Hinv Hr. induction Hr as [|st st' st'' Hp _ IH]; [auto|].
  intros Hc. apply IH; [eapply loop_inv_pass; eauto|].
  eapply cells_pass; eauto.
Qed.

End Cells.

Lemma cells_init db_entry query_name query_class n p f :
  m_flags (match_init db_entry query_name query_class (__match_new n)) !! p = Some f →
  f ∈ cell_values.
Proof.
  simpl. intros H. apply lookup_replicate_1 in H as [-> _].
  unfold cell_values. apply list_elem_of_here.
Qed.

Section LoopFacts.
Variable use_class : bool.

Lemma match_loop_aborted st :
  match match_loop use_class st with
  | Aborted r => loop_cond use_class r = true
  | Exited r => loop_cond use_class r = false
  end.
Proof.
  apply (match_loop_ind use_class
           (λ _ r, match r with
                   | Aborted r => loop_cond use_class r = true
                   | Exited r => loop_cond use_class r = false
                   end)); auto.
Qed.

(** With a class of the length of the name, the class cursor runs out
    together with the name cursor. *)
Lemma class_cursor_reaches st st' :
  length (cur_comp_class st) = length (cur_comp_name st) →
  reaches use_class st st' →
  length (cur_comp_class st') = length (cur_comp_name st').
Proof.
  intros Hl Hr. induction Hr as [|st st' st'' Hp _ IH]; [exact Hl|].
  apply IH. destruct (loop_pass_frame use_class st st' Hp) as (-> & -> & _).
  destruct (cur_comp_class st), (cur_comp_name st); simpl in *; lia.
Qed.

Lemma kind_of_pass_facts st cd cn :
  match kind_of_pass use_class st cd cn with
  | ByName => type cd = CT_NORMAL ∧ name cd = name cn
  | ByClass =>
      type cd = CT_NORMAL ∧ use_class = true
      ∧ ∃ cc, head (cur_comp_class st) = Some cc ∧ name cd = name cc
  | ByWildcard => type cd = CT_WILDCARD
  | BySkip =>
      type cd = CT_NORMAL ∧ binding_type cd = BT_LOOSE
      ∧ literal_match use_class st cd cn = false
  | ByMismatch =>
      type cd = CT_NORMAL ∧ binding_type cd = BT_TIGHT
      ∧ literal_match use_class st cd cn = false
  end.
Proof.
  unfold kind_of_pass, literal_match, strcmp_eq.
  destruct (type cd); [|reflexivity].
  destruct (String.eqb_spec (name cd) (name cn)) as [He|Hne]; [auto|]. simpl.
  destruct use_class; simpl.
  - destruct (head (cur_comp_class st)) as [cc|] eqn:Hh.
    + destruct (String.eqb_spec (name cd) (name cc)) as [He|Hne']; [eauto 6|].
      destruct (binding_type cd); auto.
    + destruct (binding_type cd); auto.
  - destruct (binding_type cd); auto.
Qed.

End LoopFacts.

Lemma last_tail {A} (l : list A) x : last (tail l) = Some x → last l = Some x.
Proof. destruct l as [|a [|b l]]; simpl; try discriminate; auto. Qed.

Lemma tail_nil_singleton {A} (l : list A) a :
  head l = Some a → tail l = [] → l = [a].
Proof. destruct l as [|b [|c l]]; simpl; intros; try discriminate; congruence. Qed.

Lemma class_cursor_init db_entry query_name query_class m :
  query_wf query_name query_class →
  use_class_of query_class = true →
  length (cur_comp_class (match_init db_entry query_name query_class m))
  = length (cur_comp_name (match_init db_entry query_name query_class m)).
Proof.
  intros Hwf Huc. destruct query_class as [qc|]; [|discriminate].
  simpl. apply (Hwf qc eq_refl).
Qed.

(** Claim C3.  For an entry and a query whose class, if any, has as many
    components as its name: [__match_matches] succeeds exactly when the
    loop is left with the entry cursor at its end and all [n] query
    positions consumed ([i = n], which is the same as the name cursor
    being at its end); and whenever the loop reaches a normal entry
    component with a tight binding that equals neither the query name nor
    the query class at the current position, the entry does not match. *)
Theorem C3_alignment_success_iff_consumed db_entry query_name query_class :
  let uc := use_class_of query_class in
  let n := xcb_xrm_entry_num_components query_name in
  let init := match_init db_entry query_name query_class (__match_new n) in
  let fin := final_state (match_loop uc init) in
  query_wf query_name query_class →
  (∀ m, __match_matches db_entry query_name query_class (__match_new n) = Some m
        ↔ cur_comp_db fin = [] ∧ i fin = n
          ∧ m = {| entry := Some db_entry; flags := m_flags fin |})
  ∧ (i fin = n ↔ cur_comp_name fin = [])
  ∧ (∀ st cd cn,
       reaches uc init st → at_cursors uc st cd cn →
       type cd = CT_NORMAL → binding_type cd = BT_TIGHT →
       literal_match uc st cd cn = false →
       __match_matches db_entry query_name query_class (__match_new n) = None).
Proof.
  intros uc n init fin Hwf.
  assert (Hinv : loop_inv n fin).
  { eapply loop_inv_reaches; [apply loop_inv_init|apply reaches_final]. }
  assert (Hin : i fin = n ↔ cur_comp_name fin = []).
  { destruct Hinv as (Hi & _). split; intros H.
    - apply nil_length_inv. lia.
    - rewrite H in Hi. simpl in Hi. lia. }
  assert (Hcls : uc = true → cur_comp_name fin = [] → cur_comp_class fin = []).
  { intros Huc Hnil. apply nil_length_inv.
    rewrite (class_cursor_reaches uc init fin); [by rewrite Hnil| |apply reaches_final].
    by apply class_cursor_init. }
  split; [|split; [exact Hin|]].
  - intros m. unfold __match_matches. fold uc n init.
    pose proof (match_loop_aborted uc init) as Hab.
    subst fin. destruct (match_loop uc init) as [r|r]; simpl in *.
    + split; [discriminate|]. intros (Hdb & _).
      destruct (loop_cond_cursors uc r Hab) as (? & ? & ? & ? & _ & Hd & _). congruence.
    + destruct (cur_comp_db r) eqn:Hd; simpl.
      2:{ split; [discriminate|]. intros (? & _); discriminate. }
      destruct (cur_comp_name r) eqn:Hn; simpl.
      2:{ split; [discriminate|]. intros (_ & Hi & _).
          apply Hin in Hi. discriminate. }
      destruct uc eqn:Huc; simpl.
      * rewrite (Hcls eq_refl eq_refl). simpl.
        split; [intros [= <-]; repeat split; by apply Hin|intros (_ & _ & ->); reflexivity].
      * split; [intros [= <-]; repeat split; by apply Hin|intros (_ & _ & ->); reflexivity].
  - intros st cd cn Hr Hat Hty Hb Hlit.
    unfold __match_matches. fold uc n init.
    rewrite (match_loop_reaches uc init st Hr).
    pose proof (loop_body_kind uc n st cd cn
                  (loop_inv_reaches uc n init st (loop_inv_init _ _ _) Hr) Hat) as Hk.
    assert (kind_of_pass uc st cd cn = ByMismatch) as Hkind.
    { unfold kind_of_pass. rewrite Hty, Hb, Hlit.
      unfold literal_match in Hlit. apply orb_false_iff in Hlit as [-> _]. reflexivity. }
    rewrite Hkind in Hk. rewrite match_loop_unfold, (proj1 Hat), Hk. reflexivity.
Qed.

(** Claim C7.  Take any state the alignment loop reaches in which it is
    about to treat the entry component [cd] at query position [i st].  If
    [cd] is a loose normal component equal to neither the query name nor
    the query class there (a loose skip), the cell of that position ends up
    with [SKIPPED] and without [PRECEDING_LOOSE] (and without any match
    flag).  If [cd] matches literally or is a wildcard, the cell ends up
    with a match flag, without [SKIPPED], and with [PRECEDING_LOOSE]
    exactly when [cd] has a loose binding.  In the record the loop leaves
    behind, [PRECEDING_LOOSE] occurs only together with a match flag. *)
Theorem C7_skipped_positions_without_preceding_loose
    db_entry query_name query_class st cd cn :
  let uc := use_class_of query_class in
  let n := xcb_xrm_entry_num_components query_name in
  let init := match_init db_entry query_name query_class (__match_new n) in
  let fin := final_state (match_loop uc init) in
  reaches uc init st → at_cursors uc st cd cn →
  ∃ f, m_flags fin !! i st = Some f
    ∧ (type cd = CT_NORMAL → binding_type cd = BT_LOOSE →
       literal_match uc st cd cn = false →
       has_flag f MF_SKIPPED = true ∧ has_flag f MF_PRECEDING_LOOSE = false
       ∧ matched_flag f = false)
    ∧ (type cd = CT_WILDCARD ∨ literal_match uc st cd cn = true →
       matched_flag f = true ∧ has_flag f MF_SKIPPED = false
       ∧ (has_flag f MF_PRECEDING_LOOSE = true ↔ binding_type cd = BT_LOOSE))
    ∧ (∀ p g, m_flags fin !! p = Some g → has_flag g MF_PRECEDING_LOOSE = true →
       matched_flag g = true ∧ has_flag g MF_SKIPPED = false).
Proof.
  intros uc n init fin Hr Hat.
  assert (Hinv : loop_inv n st).
  { eapply loop_inv_reaches; [apply loop_inv_init|exact Hr]. }
  pose proof (pass_final_cell uc n st cd cn Hinv Hat) as Hcell.
  rewrite <- (match_loop_reaches uc init st Hr) in Hcell. fold fin in Hcell.
  eexists. split; [exact Hcell|].
  pose proof (kind_of_pass_facts uc st cd cn) as Hk.
  split; [|split].
  - intros Hty Hb Hlit.
    assert (kind_of_pass uc st cd cn = BySkip) as ->; [|by vm_compute].
    unfold kind_of_pass. rewrite Hty, Hb, Hlit.
    unfold literal_match in Hlit. apply orb_false_iff in Hlit as [-> _]. reflexivity.
  - intros Hm.
    assert (∃ flag, flag ∈ [MF_NAME; MF_CLASS; MF_WILDCARD]
              ∧ cell_of_pass (kind_of_pass uc st cd cn) cd = Z.lor (binding_bit cd) flag)
      as (flag & Hflag & ->).
    { destruct (kind_of_pass uc st cd cn); simpl;
        try (eexists; split; [|reflexivity]; rewrite !elem_of_cons; tauto);
        destruct Hk as (Hty & Hb & Hlit); destruct Hm as [Hm|Hm]; congruence. }
    unfold binding_bit. rewrite !elem_of_cons, elem_of_nil in Hflag.
    destruct (binding_type cd); destruct Hflag as [->|[->|[->|[]]]];
      vm_compute; repeat split; congruence.
  - intros p g Hg Hpl.
    apply (cell_values_flags g); [|exact Hpl].
    eapply (cells_reaches uc n init fin); eauto using loop_inv_init, reaches_final.
    apply cells_init.
Qed.

Section LastPass.
Variable use_class : bool.

(** A successful alignment ends with a pass that consumes the last entry
    component together with the last query position. *)
Lemma last_pass_matches st :
  ∀ n, loop_inv n st → cur_comp_name st ≠ [] →
  let fin := final_state (match_loop use_class st) in
  cur_comp_db fin = [] → cur_comp_name fin = [] →
  (use_class = true → cur_comp_class fin = []) →
  ∃ cd cn k,
    last (cur_comp_db st) = Some cd ∧ last (cur_comp_name st) = Some cn
    ∧ m_flags fin !! (n - 1)%nat = Some (cell_of_pass k cd)
    ∧ match k with
      | ByName => name cd = name cn
      | ByClass =>
          use_class = true
          ∧ ∃ cc, last (cur_comp_class st) = Some cc ∧ name cd = name cc
      | ByWildcard => type cd = CT_WILDCARD
      | BySkip | ByMismatch => False
      end.
Proof.
  apply (match_loop_ind use_class
    (λ st r, ∀ n, loop_inv n st → cur_comp_name st ≠ [] →
       cur_comp_db (final_state r) = [] → cur_comp_name (final_state r) = [] →
       (use_class = true → cur_comp_class (final_state r) = []) →
       ∃ cd cn k,
         last (cur_comp_db st) = Some cd ∧ last (cur_comp_name st) = Some cn
         ∧ m_flags (final_state r) !! (n - 1)%nat = Some (cell_of_pass k cd)
         ∧ match k with
           | ByName => name cd = name cn
           | ByClass =>
               use_class = true
               ∧ ∃ cc, last (cur_comp_class st) = Some cc ∧ name cd = name cc
           | ByWildcard => type cd = CT_WILDCARD
           | BySkip | ByMismatch => False
           end)).
  - simpl. intros s _ n _ Hne _ Hn _. congruence.
  - simpl. intros s Hc _ n _ _ Hd _ _.
    destruct (loop_cond_cursors use_class s Hc) as (? & ? & ? & ? & _ & Hd' & _).
    congruence.
  - intros s s' Hp IH n Hinv _ Hdb Hnm Hcl.
    destruct (loop_pass_frame use_class s s' Hp) as (Hn' & Hc' & Hd' & Hi' & _).
    pose proof (loop_inv_pass use_class n s s' Hinv Hp) as Hinv'.
    destruct (cur_comp_name s') as [|cn' names'] eqn:Hnames'.
    + (* the pass from [s] is the last one *)
      assert (Hfin : match_loop use_class s' = Exited s').
      { rewrite match_loop_unfold. unfold loop_cond. rewrite Hnames'. reflexivity. }
      rewrite Hfin in *. simpl in *.
      destruct (loop_cond_cursors use_class s (proj1 Hp))
        as (cn & names & cd & db & Hn & Hd & Hcc).
      assert (Hat : at_cursors use_class s cd cn).
      { split; [exact (proj1 Hp)|]. rewrite Hn, Hd. auto. }
      pose proof (loop_body_kind use_class n s cd cn Hinv Hat) as Hk.
      pose proof (kind_of_pass_facts use_class s cd cn) as Hf.
      assert (Hi : i s = (n - 1)%nat).
      { destruct Hinv as (Hi & _). rewrite Hn in Hi, Hn'. simpl in *. subst names.
        simpl in Hi. lia. }
      assert (Hnl : cur_comp_name s = [cn]).
      { rewrite Hn in *. simpl in Hn'. by subst names. }
      exists cd, cn, (kind_of_pass use_class s cd cn).
      destruct Hp as [Hcond Hb].
      destruct (kind_of_pass use_class s cd cn);
        try (destruct Hk as (s1 & Hb1 & Hdb1 & Hcell); rewrite Hb in Hb1;
             inversion Hb1; subst s1); try congruence.
      * rewrite Hdb in Hdb1. rewrite Hd in *. simpl in Hdb1. subst db.
        rewrite Hnl, <- Hi. simpl. tauto.
      * rewrite Hdb in Hdb1. rewrite Hd in *. simpl in Hdb1. subst db.
        rewrite Hnl, <- Hi. simpl. repeat split; try tauto.
        destruct Hf as (_ & Huc & cc & Hh & He). exists cc. split; [|exact He].
        rewrite (tail_nil_singleton (cur_comp_class s) cc Hh); [reflexivity|].
        rewrite <- Hc'. by apply Hcl.
      * rewrite Hdb in Hdb1. rewrite Hd in *. simpl in Hdb1. subst db.
        rewrite Hnl, <- Hi. simpl. tauto.
    + destruct (IH n Hinv' ltac:(discriminate) Hdb Hnm Hcl)
        as (cd & cn & k & Hld & Hln & Hcell & Hk).
      exists cd, cn, k. repeat split.
      * destruct Hd' as [Hd'|Hd']; rewrite Hd' in Hld; [by apply last_tail|exact Hld].
      * rewrite Hn' in Hln. by apply last_tail.
      * exact Hcell.
      * destruct k; auto. destruct Hk as (Huc & cc & Hlc & He).
        split; [exact Huc|]. exists cc. split; [|exact He].
        rewrite Hc' in Hlc. by apply last_tail.
Qed.

End LastPass.

(** Claim C10.  In the record of a successful alignment against a query of
    [n >= 1] components, the cell of the last position [n - 1] carries
    [NAME], [CLASS] or [WILDCARD] and not [SKIPPED]; and the last component
    of the entry is a wildcard, or equals the last component of the query
    name, or equals the last component of the query class. *)
Theorem C10_last_position_is_matched db_entry query_name query_class m :
  let n := xcb_xrm_entry_num_components query_name in
  components query_name ≠ [] →
  __match_matches db_entry query_name query_class (__match_new n) = Some m →
  (∃ f, flags m !! (n - 1)%nat = Some f
        ∧ matched_flag f = true ∧ has_flag f MF_SKIPPED = false)
  ∧ (∃ cd cn,
       last (components db_entry) = Some cd
       ∧ last (components query_name) = Some cn
       ∧ (type cd = CT_WILDCARD ∨ name cd = name cn
          ∨ ∃ qc cc, query_class = Some qc
                     ∧ last (components qc) = Some cc ∧ name cd = name cc)).
Proof.
  intros n Hne Hm. unfold __match_matches in Hm. fold n in Hm.
  set (uc := use_class_of query_class) in *.
  set (init := match_init db_entry query_name query_class (__match_new n)) in *.
  pose proof (last_pass_matches uc init n (loop_inv_init _ _ _) Hne) as Hlast.
  destruct (match_loop uc init) as [r|r]; [discriminate|]. simpl in Hlast.
  destruct (cur_comp_db r) eqn:Hd; [|discriminate].
  destruct (cur_comp_name r) eqn:Hn; [|discriminate]. simpl in Hm.
  assert (Hcl : uc = true → cur_comp_class r = []).
  { intros Huc. rewrite Huc in Hm. simpl in Hm.
    destruct (cur_comp_class r); [reflexivity|discriminate]. }
  destruct (Hlast eq_refl eq_refl Hcl) as (cd & cn & k & Hld & Hln & Hcell & Hk).
  assert (m = {| entry := Some db_entry; flags := m_flags r |}) as ->.
  { destruct (negb uc || is_NULL (cur_comp_class r)); congruence. }
  simpl. split.
  - exists (cell_of_pass k cd). split; [exact Hcell|].
    unfold cell_of_pass, binding_bit.
    destruct k, (binding_type cd); try (exfalso; exact Hk); by vm_compute.
  - exists cd, cn. repeat split; [exact Hld|exact Hln|].
    destruct k; try (exfalso; exact Hk); auto.
    right; right. destruct Hk as (Huc & cc & Hlc & He).
    subst uc. destruct query_class as [qc|]; [|discriminate].
    exists qc, cc. auto.
Qed.

(** ** Comparison of records *)

(** The test of one pass of [__match_compare] is the precedence rules read
    in favour of the candidate. *)
Lemma compare_at_beats mt_best mt_candidate :
  compare_at mt_best mt_candidate = beats mt_candidate mt_best.
Proof.
  unfold compare_at, beats, rule1, rule2, rule3, matched_flag.
  destruct (has_flag mt_best MF_SKIPPED), (has_flag mt_best MF_CLASS),
    (has_flag mt_best MF_WILDCARD), (has_flag mt_best MF_PRECEDING_LOOSE),
    (has_flag mt_candidate MF_NAME), (has_flag mt_candidate MF_CLASS),
    (has_flag mt_candidate MF_WILDCARD), (has_flag mt_candidate MF_PRECEDING_LOOSE),
    (has_flag mt_best MF_NAME), (has_flag mt_candidate MF_SKIPPED);
    reflexivity.
Qed.

Lemma compare_from_true n i0 best candidate :
  compare_from n i0 best candidate = true
  ↔ ∃ p, (i0 ≤ p < i0 + n)%nat ∧ compare_at (best !!! p) (candidate !!! p) = true.
Proof.
  revert i0. induction n as [|n IH]; intros i0; simpl.
  - split; [discriminate|]. intros (p & Hp & _). lia.
  - destruct (compare_at (best !!! i0) (candidate !!! i0)) eqn:Hc.
    + split; [|reflexivity]. intros _. exists i0. split; [lia|exact Hc].
    + rewrite IH. split; intros (p & Hp & Hat).
      * exists p. split; [lia|exact Hat].
      * exists p. split; [|exact Hat].
        destruct (decide (p = i0)) as [->|]; [congruence|lia].
Qed.

Lemma compare_from_false n i0 best candidate :
  compare_from n i0 best candidate = false
  ↔ ∀ p, (i0 ≤ p < i0 + n)%nat → compare_at (best !!! p) (candidate !!! p) = false.
Proof.
  rewrite <- not_true_iff_false, compare_from_true. split.
  - intros H p Hp. apply not_true_iff_false. intros Hat. apply H. eauto.
  - intros H (p & Hp & Hat). rewrite H in Hat by exact Hp. discriminate.
Qed.

(** [__match_compare] succeeds exactly when the candidate wins at some
    position, whatever the positions before it say. *)
Lemma match_compare_some_position n best candidate :
  __match_compare n best candidate = true
  ↔ ∃ p, (p < n)%nat ∧ beats (flags candidate !!! p) (flags best !!! p) = true.
Proof.
  unfold __match_compare. rewrite compare_from_true.
  split; intros (p & Hp & H); exists p; (split; [lia|]).
  - by rewrite <- compare_at_beats.
  - by rewrite compare_at_beats.
Qed.

(** A candidate that wins at the first decisive position replaces the best
    match. *)
Lemma match_compare_first_decisive_candidate n best candidate p :
  first_decisive_position n (flags best) (flags candidate) p →
  beats (flags candidate !!! p) (flags best !!! p) = true →
  __match_compare n best candidate = true.
Proof. intros (Hp & _) Hb. apply match_compare_some_position. eauto. Qed.

(** An all-[NAME] record never loses a comparison. *)
Lemma compare_at_name_best mt_candidate : compare_at MF_NAME mt_candidate = false.
Proof. reflexivity. Qed.

Lemma compare_at_name_candidate mt_best :
  has_flag mt_best MF_SKIPPED = true ∨ has_flag mt_best MF_WILDCARD = true →
  compare_at mt_best MF_NAME = true.
Proof.
  unfold compare_at. change (has_flag MF_NAME MF_NAME) with true.
  intros [-> | ->]; simpl; [reflexivity|].
  rewrite orb_true_r, !andb_true_r. simpl. by rewrite orb_true_r.
Qed.

(** ** The loop over the database *)

Lemma __match_matches_entry e qn qc m m' :
  __match_matches e qn qc m = Some m' → entry m' = Some e.
Proof.
  unfold __match_matches. destruct (match_loop _ _); [discriminate|].
  destruct (_ && _); [|discriminate]. by intros [= <-].
Qed.

Lemma record_of_Some qn qc e M :
  record_of qn qc e = Some M ↔
  __match_matches e qn qc (__match_new (xcb_xrm_entry_num_components qn))
  = Some {| entry := Some e; flags := M |}.
Proof.
  unfold record_of. split.
  - destruct (__match_matches _ _ _ _) as [m|] eqn:Hm; [|discriminate].
    simpl. intros [= <-]. apply __match_matches_entry in Hm as He.
    destruct m; simpl in *. by subst.
  - intros ->. reflexivity.
Qed.

Lemma record_of_None qn qc e :
  record_of qn qc e = None ↔
  __match_matches e qn qc (__match_new (xcb_xrm_entry_num_components qn)) = None.
Proof. unfold record_of. destruct (__match_matches _ _ _ _); simpl; split; congruence. Qed.

Lemma record_of_length qn qc e M :
  record_of qn qc e = Some M → length M = xcb_xrm_entry_num_components qn.
Proof.
  unfold record_of, __match_matches.
  set (uc := use_class_of qc). set (n := xcb_xrm_entry_num_components qn).
  set (init := match_init _ _ _ _).
  pose proof (loop_inv_reaches uc n init _ (loop_inv_init e qn qc)
                (reaches_final uc init)) as (_ & Hl & _).
  destruct (match_loop uc init); simpl in *; [discriminate|].
  destruct (_ && _); [|discriminate]. by intros [= <-].
Qed.

Section Database.
Variables (query_name : xcb_xrm_entry_t) (query_class : option xcb_xrm_entry_t).

Lemma entries_loop_cons best e entries :
  entries_loop query_name query_class best (e :: entries)
  = entries_loop query_name query_class
      (match_step (xcb_xrm_entry_num_components query_name) query_name query_class best e)
      entries.
Proof. reflexivity. Qed.

Lemma entries_loop_app best entries1 entries2 :
  entries_loop query_name query_class best (entries1 ++ entries2)
  = entries_loop query_name query_class
      (entries_loop query_name query_class best entries1) entries2.
Proof. apply foldl_app. Qed.

Lemma match_step_unmatched best e :
  record_of query_name query_class e = None →
  match_step (xcb_xrm_entry_num_components query_name) query_name query_class best e
  = best.
Proof. intros He. apply record_of_None in He. unfold match_step. by rewrite He. Qed.

Lemma match_step_first e M :
  record_of query_name query_class e = Some M →
  match_step (xcb_xrm_entry_num_components query_name) query_name query_class None e
  = Some {| entry := Some e; flags := M |}.
Proof. intros He. apply record_of_Some in He. unfold match_step. by rewrite He. Qed.

Lemma match_step_compare b e M :
  record_of query_name query_class e = Some M →
  match_step (xcb_xrm_entry_num_components query_name) query_name query_class (Some b) e
  = if compare_from (xcb_xrm_entry_num_components query_name) 0 (flags b) M
    then Some {| entry := Some e; flags := M |} else Some b.
Proof. intros He. apply record_of_Some in He. unfold match_step. by rewrite He. Qed.

Lemma entries_loop_none entries :
  (∀ e, e ∈ entries → record_of query_name query_class e = None) →
  ∀ best, entries_loop query_name query_class best entries = best.
Proof.
  induction entries as [|e db IH]; intros Hnone best; [reflexivity|].
  rewrite entries_loop_cons, match_step_unmatched by (apply Hnone; constructor).
  apply IH. intros e' He'. apply Hnone. by constructor.
Qed.

(** The best match is the one the loop was entered with or the record of
    an entry visited. *)
Lemma entries_loop_some entries :
  ∀ best b, entries_loop query_name query_class best entries = Some b →
    best = Some b
    ∨ ∃ e, e ∈ entries
           ∧ record_of query_name query_class e = Some (flags b)
           ∧ entry b = Some e.
Proof.
  induction entries as [|e db IH]; intros best b; [auto|].
  rewrite entries_loop_cons. intros H.
  apply IH in H as [H|(e' & He' & H)].
  - destruct (record_of query_name query_class e) as [M|] eqn:He.
    + destruct best as [b0|].
      * rewrite (match_step_compare _ _ _ He) in H.
        destruct (compare_from _ _ _ _); inversion H; subst; [|auto].
        right. exists e. repeat split; [constructor|exact He].
      * rewrite (match_step_first _ _ He) in H. inversion H; subst.
        right. exists e. repeat split; [constructor|exact He].
    + rewrite (match_step_unmatched _ _ He) in H. auto.
  - right. exists e'. split; [by constructor|exact H].
Qed.

Lemma entries_loop_is_some entries best :
  is_Some best → is_Some (entries_loop query_name query_class best entries).
Proof.
  revert best. induction entries as [|e db IH]; intros best Hb; [exact Hb|].
  rewrite entries_loop_cons. apply IH. unfold match_step.
  destruct (__match_matches e _ _ _); [|exact Hb].
  destruct best; [|eauto]. destruct (__match_compare _ _ _); eauto.
Qed.

Lemma best_match_of_None database :
  best_match_of database query_name query_class = None
  ↔ ∀ e, e ∈ database → record_of query_name query_class e = None.
Proof.
  unfold best_match_of. split; [|intros H; by apply entries_loop_none].
  induction database as [|e db IH]; intros H e' He'; [by inversion He'|].
  rewrite entries_loop_cons in H.
  destruct (record_of query_name query_class e) as [M|] eqn:He.
  - rewrite (match_step_first _ _ He) in H.
    destruct (entries_loop_is_some db (Some {| entry := Some e; flags := M |}))
      as [? Hx]; [eauto|congruence].
  - rewrite (match_step_unmatched _ _ He) in H.
    inversion He'; subst; [exact He|]. by apply IH.
Qed.

(** A best match that no later record replaces. *)
Lemma entries_loop_keeps entries b :
  (∀ e M, e ∈ entries → record_of query_name query_class e = Some M →
          compare_from (xcb_xrm_entry_num_components query_name) 0 (flags b) M = false) →
  entries_loop query_name query_class (Some b) entries = Some b.
Proof.
  induction entries as [|e db IH]; intros Hkeep; [reflexivity|].
  rewrite entries_loop_cons.
  replace (match_step _ query_name query_class (Some b) e) with (Some b).
  { apply IH. intros e' M He'. apply Hkeep. by constructor. }
  destruct (record_of query_name query_class e) as [M|] eqn:He.
  - rewrite (match_step_compare _ _ _ He), (Hkeep e M); [reflexivity|constructor|exact He].
  - by rewrite (match_step_unmatched _ _ He).
Qed.

End Database.

Section Exact.
Variable use_class : bool.

(** Tight components that spell the remaining query names are consumed
    one by one, each leaving [MF_NAME]. *)
Lemma exact_loop n names :
  ∀ st,
    cur_comp_name st = names →
    Forall2 (λ cd cn, type cd = CT_NORMAL ∧ binding_type cd = BT_TIGHT
                      ∧ name cd = name cn) (cur_comp_db st) names →
    (use_class = true → length (cur_comp_class st) = length names) →
    loop_inv n st →
    ∃ fin,
      match_loop use_class st = Exited fin
      ∧ cur_comp_db fin = [] ∧ cur_comp_name fin = []
      ∧ (use_class = true → cur_comp_class fin = [])
      ∧ (∀ p, (p < i st)%nat → m_flags fin !! p = m_flags st !! p)
      ∧ (∀ p, (i st ≤ p < n)%nat → m_flags fin !! p = Some MF_NAME).
Proof.
  induction names as [|cn names IH]; intros st Hn Hall Hcl Hinv.
  - exists st. inversion Hall as [Hd|]; subst.
    rewrite match_loop_unfold. unfold loop_cond. rewrite Hn. simpl.
    repeat split; auto.
    + intros Huc. apply nil_length_inv. by apply Hcl.
    + intros p Hp. destruct Hinv as (Hi & _). rewrite Hn in Hi. simpl in Hi. lia.
  - inversion Hall as [|cd ? db ? (Hty & Hb & Hname) Hall' Hd]; subst.
    assert (Hc : loop_cond use_class st = true).
    { unfold loop_cond. rewrite Hn, <- Hd. simpl. rewrite andb_true_r.
      destruct use_class; [|reflexivity]. simpl.
      specialize (Hcl eq_refl). destruct (cur_comp_class st); [discriminate|reflexivity]. }
    assert (Hat : at_cursors use_class st cd cn).
    { split; [exact Hc|]. rewrite Hn, <- Hd. auto. }
    pose proof (loop_body_kind use_class n st cd cn Hinv Hat) as Hk.
    assert (Hkind : kind_of_pass use_class st cd cn = ByName).
    { unfold kind_of_pass, strcmp_eq. rewrite Hty, Hname, String.eqb_refl. reflexivity. }
    rewrite Hkind in Hk. destruct Hk as (st' & Hbody & Hdb' & Hcell).
    assert (Hp : loop_pass use_class st st') by (by split).
    destruct (loop_pass_frame use_class st st' Hp) as (Hn' & Hc' & _ & Hi' & _ & Hfr).
    destruct (IH st') as (fin & Hfin & Hfd & Hfn & Hfc & Hbelow & Hnames).
    + rewrite Hn', Hn. reflexivity.
    + rewrite Hdb', <- Hd. exact Hall'.
    + intros Huc. rewrite Hc'. specialize (Hcl Huc).
      destruct (cur_comp_class st); simpl in *; lia.
    + eapply loop_inv_pass; eauto.
    + exists fin. rewrite (match_loop_pass use_class st st' Hp).
      repeat split; auto.
      * intros p Hlt. rewrite Hbelow by lia. apply Hfr. lia.
      * intros p Hlt. destruct (decide (p = i st)) as [->|Hne].
        -- rewrite Hbelow by lia. rewrite Hcell. unfold binding_bit. by rewrite Hb.
        -- apply Hnames. lia.
Qed.

End Exact.

Lemma exact_tight_Forall2 e query_name :
  exact_tight e query_name →
  Forall2 (λ cd cn, type cd = CT_NORMAL ∧ binding_type cd = BT_TIGHT
                    ∧ name cd = name cn) (components e) (components query_name).
Proof.
  intros [Hlen Hall]. apply Forall2_same_length_lookup. split; [exact Hlen|].
  intros p cd cn Hcd Hcn. destruct (Hall p cd Hcd) as (Hty & Hb & Hname).
  rewrite Hcn in Hname. simpl in Hname. inversion Hname. auto.
Qed.

(** The record of an exact, tight entry is [NAME] at every position. *)
Lemma exact_tight_record e query_name query_class :
  query_wf query_name query_class → exact_tight e query_name →
  record_of query_name query_class e
  = Some (replicate (xcb_xrm_entry_num_components query_name) MF_NAME).
Proof.
  intros Hwf Hex. apply record_of_Some. unfold __match_matches.
  set (uc := use_class_of query_class). set (n := xcb_xrm_entry_num_components query_name).
  set (init := match_init _ _ _ _).
  destruct (exact_loop uc n (components query_name) init)
    as (fin & Hfin & Hfd & Hfn & Hfc & _ & Hnames).
  - reflexivity.
  - by apply exact_tight_Forall2.
  - intros Huc. by apply class_cursor_init.
  - apply loop_inv_init.
  - rewrite Hfin, Hfd, Hfn. simpl.
    assert (negb uc || is_NULL (cur_comp_class fin) = true) as ->.
    { destruct uc; [|reflexivity]. by rewrite Hfc. }
    do 2 f_equal.
    pose proof (loop_inv_reaches uc n init _ (loop_inv_init _ _ _)
                  (reaches_final uc init)) as Hinv.
    rewrite Hfin in Hinv. simpl in Hinv.
    destruct Hinv as (_ & Hlen & _).
    apply list_eq_same_length with n; [apply length_replicate|exact Hlen|].
    intros p x y Hp Hx Hy. apply lookup_replicate_1 in Hy as [-> _].
    rewrite Hnames in Hx by (simpl; lia). congruence.
Qed.

Lemma xcb_xrm_match_None database query_name query_class :
  xcb_xrm_match database query_name query_class = None
  ↔ ∀ e, e ∈ database → record_of query_name query_class e = None.
Proof.
  rewrite <- best_match_of_None. unfold xcb_xrm_match.
  destruct (best_match_of database query_name query_class) as [b|] eqn:Hb; [|tauto].
  split; [|discriminate].
  apply entries_loop_some in Hb as [Hb|(e & _ & _ & He)]; [discriminate|].
  rewrite He. discriminate.
Qed.

Lemma xcb_xrm_match_Some database query_name query_class v :
  xcb_xrm_match database query_name query_class = Some v →
  ∃ e, e ∈ database ∧ is_Some (record_of query_name query_class e) ∧ value e = v.
Proof.
  unfold xcb_xrm_match.
  destruct (best_match_of database query_name query_class) as [b|] eqn:Hb; [|discriminate].
  apply entries_loop_some in Hb as [Hb|(e & He & Hm & Hent)]; [discriminate|].
  rewrite Hent. simpl. intros [= <-].
  exists e. repeat split; [exact He|]. rewrite Hm. eauto.
Qed.

(** Records that rules 1-3 do not tell apart leave the best match in
    place. *)
Lemma compare_equivalent n best candidate :
  equivalent_records n best candidate → compare_from n 0 best candidate = false.
Proof.
  intros Heq. apply compare_from_false. intros p Hp.
  rewrite compare_at_beats. specialize (Heq p ltac:(lia)).
  unfold decisive in Heq. by apply orb_false_iff in Heq as [_ ->].
Qed.

(** Property X20.  Let [e1] be the best match, with record [M1], when the
    loop over the database has visited it.  A later matching entry whose
    record rules 1-3 do not tell apart from [M1] at any of the [n]
    positions loses the comparison: [__match_compare] returns [-FAILURE]
    and the incumbent is retained.  When every later matching entry is of
    that kind, the lookup returns the value of [e1], the first of them in
    database order.  (Nothing is said of databases in which an entry of
    another kind comes between them.) *)
Theorem incumbent_keeps_against_equivalent_records D1 D2 e1 M1 query_name query_class :
  let n := xcb_xrm_entry_num_components query_name in
  entries_loop query_name query_class None (D1 ++ [e1])
  = Some {| entry := Some e1; flags := M1 |} →
  (∀ x M, x ∈ D2 → record_of query_name query_class x = Some M →
          equivalent_records n M1 M) →
  (∀ x M, x ∈ D2 → record_of query_name query_class x = Some M →
          __match_compare n {| entry := Some e1; flags := M1 |}
            {| entry := Some x; flags := M |} = false)
  ∧ xcb_xrm_match (D1 ++ e1 :: D2) query_name query_class = Some (value e1).
Proof.
  intros n Hbest Heq.
  assert (Hkeep : ∀ x M, x ∈ D2 → record_of query_name query_class x = Some M →
                         compare_from n 0 M1 M = false).
  { intros x M Hx HM. apply compare_equivalent. eauto. }
  split; [exact Hkeep|].
  unfold xcb_xrm_match, best_match_of.
  replace (D1 ++ e1 :: D2) with ((D1 ++ [e1]) ++ D2)
    by (rewrite <- app_assoc; reflexivity).
  rewrite entries_loop_app, Hbest, entries_loop_keeps; [reflexivity|exact Hkeep].
Qed.

(** Claim C2.  For a fully qualified query, an entry [e] with tight
    bindings throughout whose components are the components of the query
    name supplies the value of the lookup, wherever it stands in the
    database, when every other matching entry has a record with a
    [SKIPPED] or a [WILDCARD] position. *)
Theorem C2_exact_tight_entry_wins D1 D2 e query_name query_class :
  query_wf query_name query_class →
  exact_tight e query_name →
  (∀ x M, x ∈ D1 ++ D2 → record_of query_name query_class x = Some M →
          relies_on_skip_or_wildcard M) →
  xcb_xrm_match (D1 ++ e :: D2) query_name query_class = Some (value e).
Proof.
  intros Hwf Hex Hrel. unfold xcb_xrm_match, best_match_of.
  pose proof (exact_tight_record e query_name query_class Hwf Hex) as Hrec.
  rewrite entries_loop_app, entries_loop_cons.
  assert (Hstep : match_step (xcb_xrm_entry_num_components query_name) query_name
                    query_class (entries_loop query_name query_class None D1) e
                  = Some {| entry := Some e;
                            flags := replicate (xcb_xrm_entry_num_components query_name)
                                       MF_NAME |}).
  { destruct (entries_loop query_name query_class None D1) as [b|] eqn:Hb;
      [|by apply match_step_first].
    rewrite (match_step_compare _ _ _ _ _ Hrec).
    apply entries_loop_some in Hb as [Hb|(x & Hx & Hrx & _)]; [discriminate|].
    destruct (Hrel x (flags b)) as (p & f & Hf & Hsw); [apply elem_of_app; auto|exact Hrx|].
    pose proof (record_of_length _ _ _ _ Hrx) as Hlen.
    apply lookup_lt_Some in Hf as Hp. rewrite Hlen in Hp.
    replace (compare_from _ _ _ _) with true; [reflexivity|].
    symmetry. apply compare_from_true. exists p. split; [lia|].
    rewrite (list_lookup_total_correct _ _ _ Hf), lookup_total_replicate_2 by exact Hp.
    by apply compare_at_name_candidate. }
  rewrite Hstep, entries_loop_keeps; [reflexivity|].
  intros x M _ HM. simpl. apply compare_from_false. intros p Hp.
  rewrite lookup_total_replicate_2 by lia. apply compare_at_name_best.
Qed.

(** Claim C9.  An empty class string behaves like a [NULL] class string:
    the two lookups agree for every parser, database and name, and the
    result is the name-only match, obtained without parsing the class and
    without a check of lengths. *)
Theorem C9_empty_class_is_absent_class
    (parse : string → bool → option xcb_xrm_entry_t) database res_name :
  xcb_xrm_resource_get_string parse database res_name (Some EmptyString)
  = xcb_xrm_resource_get_string parse database res_name None
  ∧ xcb_xrm_resource_get_string parse database res_name (Some EmptyString)
    = match database, res_name with
      | Some db, Some s =>
          if is_NULL db then None
          else match parse s true with
               | Some query_name => xcb_xrm_match db query_name None
               | None => None
               end
      | _, _ => None
      end.
Proof.
  unfold xcb_xrm_resource_get_string, __resource_get.
  destruct database as [db|], res_name as [s|]; simpl;
    try destruct (is_NULL db); split; reflexivity.
Qed.

(** Claim C4, amended.  The lookup returns absence exactly when the
    database is absent or empty, the name is absent or fails to parse, the
    class string is given (not [NULL], not empty) and fails to parse, the
    class string is given and parses to another number of components than
    the name, or no entry of the database aligns against the query; in
    every other case it returns the value of an entry of the database that
    aligns against the query. *)
Theorem C4_absence_cases_of_lookup
    (parse : string → bool → option xcb_xrm_entry_t) database res_name res_class :
  (xcb_xrm_resource_get_string parse database res_name res_class = None
   ↔ absence_cases parse database res_name res_class)
  ∧ (∀ v, xcb_xrm_resource_get_string parse database res_name res_class = Some v →
          ∃ db s query_name e,
            database = Some db ∧ res_name = Some s
            ∧ parse s true = Some query_name ∧ e ∈ db
            ∧ is_Some (record_of query_name (class_query parse res_class) e)
            ∧ value e = v).
Proof.
  unfold xcb_xrm_resource_get_string, __resource_get, absence_cases,
    database_empty, name_unparsed, class_unparsed, length_mismatch, no_entry_aligns,
    class_query.
  destruct database as [[|e0 db]|]; simpl; try (split; [split; auto|discriminate]).
  destruct res_name as [s|]; simpl; [|split; [split; auto|discriminate]].
  destruct (parse s true) as [qn|] eqn:Hs; [|split; [split; eauto 7|discriminate]].
  assert (Hmatch : ∀ qc,
    (xcb_xrm_match (e0 :: db) qn qc = None
     ↔ ∃ db' s' qn', Some (e0 :: db) = Some db' ∧ Some s = Some s' ∧ parse s' true = Some qn'
         ∧ ∀ e, e ∈ db' → record_of qn' qc e = None)
    ∧ (∀ v, xcb_xrm_match (e0 :: db) qn qc = Some v →
         ∃ db' s' qn' e, Some (e0 :: db) = Some db' ∧ Some s = Some s'
           ∧ parse s' true = Some qn' ∧ e ∈ db' ∧ is_Some (record_of qn' qc e) ∧ value e = v)).
  { intros qc. split.
    - rewrite xcb_xrm_match_None. split.
      + intros H. exists (e0 :: db), s, qn. auto.
      + intros (db' & s' & qn' & [= <-] & [= <-] & Hp & H).
        rewrite Hs in Hp. inversion Hp; subst. exact H.
    - intros v Hv. apply xcb_xrm_match_Some in Hv as (e & He & Hr & Hval).
      exists (e0 :: db), s, qn, e. auto 10. }
  destruct res_class as [c|]; simpl.
  2:{ destruct (Hmatch None) as [Hn Hv]. split; [|exact Hv].
      rewrite Hn. split; [auto 6|].
      intros [[?|?]|[[?|(? & ? & ?)]|[(? & ? & _)|[(? & ? & ? & ? & _ & ? & _)|H]]]];
        try congruence; exact H. }
  destruct (bool_decide (0 < strlen c)%nat) eqn:Hlen.
  2:{ destruct (Hmatch None) as [Hn Hv]. split; [|exact Hv].
      apply bool_decide_eq_false in Hlen.
      rewrite Hn. split; [auto 6|].
      intros [[?|?]|[[?|(? & ? & ?)]|[(? & ? & ? & _)|[(? & ? & ? & ? & _ & ? & ? & _)|H]]]];
        try congruence; try exact H; exfalso; apply Hlen; congruence. }
  apply bool_decide_eq_true in Hlen.
  destruct (parse c true) as [qc|] eqn:Hc.
  2:{ split; [|discriminate]. split; [|reflexivity]. intros _.
      right; right; left. eauto. }
  destruct (bool_decide _) eqn:Hnum.
  - apply bool_decide_eq_true in Hnum. split; [|discriminate].
    split; [|reflexivity]. intros _. right; right; right; left.
    exists s, c, qn, qc. auto 7.
  - apply bool_decide_eq_false in Hnum.
    destruct (Hmatch (Some qc)) as [Hn Hv]. split; [|exact Hv].
    rewrite Hn. split; [auto 6|].
    intros [[?|?]|[[?|(? & ? & ?)]|[(? & ? & ? & ?)|[(? & ? & ? & ? & ? & ? & ? & ? & ? & ?)|H]]]];
      try congruence; try exact H.
    exfalso. apply Hnum. congruence.
Qed.

(** Claim C1 (the code does not do this).  For the entries [a.?.c] and
    [*b.c] and the query [a.b.c], position 0 is the first position at which
    rules 1-3 distinguish the two records, and it favours [a.?.c] by
    rule 1: [a.?.c] matched ([NAME]) where [*b.c] is [SKIPPED].  With
    [a.?.c] as the incumbent, [__match_compare] nevertheless goes on to
    position 1, where the [NAME] of the candidate beats the [WILDCARD] of
    the incumbent, and returns [SUCCESS]: the candidate replaces the
    incumbent.  The lookup returns the value of [*b.c] when [a.?.c] comes
    first and the value of [a.?.c] when the two entries are swapped. *)
Theorem C1_matched_incumbent_replaced_by_skipping_candidate :
  let best := {| entry := Some entry_a_any_c;
                 flags := [MF_NAME; MF_WILDCARD; MF_NAME] |} in
  let candidate := {| entry := Some entry_any_b_c;
                      flags := [MF_SKIPPED; Z.lor MF_PRECEDING_LOOSE MF_NAME; MF_NAME] |} in
  __match_matches entry_a_any_c query_a_b_c None (__match_new 3) = Some best
  ∧ __match_matches entry_any_b_c query_a_b_c None (__match_new 3) = Some candidate
  ∧ first_decisive_position 3 (flags best) (flags candidate) 0
  ∧ rule1 (flags best !!! 0%nat) (flags candidate !!! 0%nat) = true
  ∧ beats (flags candidate !!! 0%nat) (flags best !!! 0%nat) = false
  ∧ __match_compare 3 best candidate = true
  ∧ lookup [entry_a_any_c; entry_any_b_c] "a.b.c" None = Some "2"
  ∧ lookup [entry_any_b_c; entry_a_any_c] "a.b.c" None = Some "1".
Proof.
  repeat split; try reflexivity.
  - lia.
  - intros q Hq. lia.
Qed.

(** Claim C5 (the code does not do this).  The database [a.?.c: 1],
    [*b.c: 2], [a.?.c: 3] holds two entries with the same record against
    the query [a.b.c]: rules 1-3 tell them apart at no position, and
    compared with each other the earlier one is retained.  The claim has
    the earlier of the two supply the value.  Between them, however,
    [*b.c] replaces the first entry (at position 1, although position 0
    favours the incumbent by rule 1), and the third entry then replaces
    [*b.c] at position 0: the lookup returns [3], the value of the later
    of the two.  Without the entry in between it returns [1]. *)
Theorem C5_later_of_two_equivalent_entries_supplies_the_value :
  let first := entry_a_any_c in
  let later := {| components := [tight "a"; tight_any; tight "c"]; value := "3" |} in
  let M := [MF_NAME; MF_WILDCARD; MF_NAME] in
  record_of query_a_b_c None first = Some M
  ∧ record_of query_a_b_c None later = Some M
  ∧ equivalent_records 3 M M
  ∧ __match_compare 3 (match_of first M) (match_of later M) = false
  ∧ record_of query_a_b_c None entry_any_b_c
    = Some [MF_SKIPPED; Z.lor MF_PRECEDING_LOOSE MF_NAME; MF_NAME]
  ∧ __match_compare 3 (match_of first M)
      (match_of entry_any_b_c [MF_SKIPPED; Z.lor MF_PRECEDING_LOOSE MF_NAME; MF_NAME])
    = true
  ∧ __match_compare 3
      (match_of entry_any_b_c [MF_SKIPPED; Z.lor MF_PRECEDING_LOOSE MF_NAME; MF_NAME])
      (match_of later M)
    = true
  ∧ lookup [first; entry_any_b_c; later] "a.b.c" None = Some "3"
  ∧ lookup [first; later] "a.b.c" None = Some "1".
Proof.
  repeat split; try reflexivity.
  intros [|[|[|p]]] Hp; reflexivity.
Qed.

(** Claim C6.  For the database [*foreground: black],
    [xterm*foreground: white], the lookup of the name
    [xterm.vt100.foreground] with the class [XTerm.VT100.Foreground]
    returns [white]. *)
Theorem C6_xterm_foreground_is_white :
  lookup db_foreground "xterm.vt100.foreground" (Some "XTerm.VT100.Foreground")
  = Some "white".
Proof. reflexivity. Qed.

(** Claim C4, as stated, fails.  For the database [Xft.dpi: 96], the name
    [Xft.dpi] and the class string [?.?], which does not parse, the lookup
    returns absence although the database is not empty, the name parses,
    the class does not parse to any number of components, and the entry
    aligns against the query. *)
Lemma C4_unparsable_class_is_absence_too :
  xcb_xrm_resource_get_string query_parse (Some db_dpi) (Some "Xft.dpi") (Some "?.?") = None
  ∧ ¬ listed_absence_cases query_parse (Some db_dpi) (Some "Xft.dpi") (Some "?.?").
Proof.
  split; [reflexivity|].
  intros [[H|H]|[[H|(s & [= <-] & H)]|[(s & c & qn & qc & _ & [= <-] & _ & _ & H & _)
                                      |(db & s & qn & [= <-] & [= <-] & [= <-] & H)]]];
    try discriminate.
  specialize (H _ (list_elem_of_here _ _)). discriminate.
Qed.

Lemma bool_conversion_correct value b :
  bool_conversion value b ↔ xcb_xrm_convert_to_bool value = b.
Proof.
  split.
  - intros H. destruct H as [|s n Hn|s Hn Ht|s Hn Ht Hf|s Hn Ht Hf]; simpl;
      rewrite ?Hn, ?Ht, ?Hf; reflexivity.
  - intros <-. destruct value as [s|]; simpl; [|constructor].
    destruct (parse_long s) as [n|] eqn:Hn; [by constructor|].
    destruct (is_true_word s) eqn:Ht; [by constructor|].
    destruct (is_false_word s) eqn:Hf; by constructor.
Qed.

(** Claim C8.  The boolean conversion returns [b] exactly when the
    documented steps, taken in their order, give [b]: false for an absent
    value; else the truthiness of the number when the value converts to an
    integer; else true for one of true/on/yes, whatever the case of the
    letters; else false for one of false/off/no; else false.  The integer
    conversion of an absent value is [LONG_MIN]. *)
Theorem C8_conversion_steps_in_order value b :
  (bool_conversion value b ↔ xcb_xrm_convert_to_bool value = b)
  ∧ xcb_xrm_convert_to_long None = LONG_MIN.
Proof. split; [apply bool_conversion_correct|reflexivity]. Qed.

Example convert_to_bool_samples :
  xcb_xrm_convert_to_bool (Some "1") = true
  ∧ xcb_xrm_convert_to_bool (Some "0") = false
  ∧ xcb_xrm_convert_to_bool (Some "-3") = true
  ∧ xcb_xrm_convert_to_bool (Some "TRUE") = true
  ∧ xcb_xrm_convert_to_bool (Some "On") = true
  ∧ xcb_xrm_convert_to_bool (Some "off") = false
  ∧ xcb_xrm_convert_to_bool (Some "maybe") = false
  ∧ xcb_xrm_convert_to_bool (Some EmptyString) = false.
Proof. repeat split; reflexivity. Qed.

Example convert_to_long_samples :
  xcb_xrm_convert_to_long (Some "42") = 42
  ∧ xcb_xrm_convert_to_long (Some "-7") = -7
  ∧ xcb_xrm_convert_to_long (Some "4x") = LONG_MIN
  ∧ xcb_xrm_convert_to_long (Some EmptyString) = LONG_MIN.
Proof. repeat split; reflexivity. Qed.

(** ** The theorems at sample inputs *)

Lemma C8_witness : bool_conversion (Some "Yes") true.
Proof. apply (C8_conversion_steps_in_order (Some "Yes") true). reflexivity. Defined.

Lemma C4_witness :
  absence_cases query_parse (Some db_dpi) (Some "Xft.dpi") (Some "?.?").
Proof.
  apply (C4_absence_cases_of_lookup query_parse (Some db_dpi) (Some "Xft.dpi") (Some "?.?")).
  reflexivity.
Defined.

Lemma C10_witness :
  (∃ f, [MF_SKIPPED; MF_SKIPPED; Z.lor MF_PRECEDING_LOOSE MF_NAME] !! 2%nat = Some f
        ∧ matched_flag f = true ∧ has_flag f MF_SKIPPED = false)
  ∧ (∃ cd cn,
       last [loose "c"] = Some cd
       ∧ last (components query_a_b_c) = Some cn
       ∧ (type cd = CT_WILDCARD ∨ name cd = name cn
          ∨ ∃ qc cc, None = Some qc ∧ last (components qc) = Some cc ∧ name cd = name cc)).
Proof.
  apply (C10_last_position_is_matched
           {| components := [loose "c"]; value := "v" |} query_a_b_c None
           {| entry := Some {| components := [loose "c"]; value := "v" |};
              flags := [MF_SKIPPED; MF_SKIPPED; Z.lor MF_PRECEDING_LOOSE MF_NAME] |}).
  - discriminate.
  - reflexivity.
Defined.

Lemma C3_witness :
  __match_matches {| components := [tight "a"; tight "x"]; value := "v" |}
    {| components := [tight "a"; tight "b"]; value := EmptyString |} None (__match_new 2) = None.
Proof.
  assert (Hwf : query_wf {| components := [tight "a"; tight "b"]; value := EmptyString |} None)
    by (intros qc Hqc; discriminate Hqc).
  apply (proj2 (proj2 (C3_alignment_success_iff_consumed
                         {| components := [tight "a"; tight "x"]; value := "v" |}
                         {| components := [tight "a"; tight "b"]; value := EmptyString |} None Hwf))
           (mk_state [tight "b"] [] [tight "x"] 1 [MF_NAME; 0]) (tight "x") (tight "b")).
  - eapply reaches_pass; [split; reflexivity|apply reaches_refl].
  - repeat split; reflexivity.
  - reflexivity.
  - reflexivity.
  - reflexivity.
Defined.

Lemma C7_witness :
  ∃ f, m_flags (final_state (match_loop false
                  (match_init {| components := [tight "a"; loose "c"]; value := "v" |}
                     query_a_b_c None (__match_new 3)))) !! 1%nat = Some f
       ∧ has_flag f MF_SKIPPED = true ∧ has_flag f MF_PRECEDING_LOOSE = false.
Proof.
  destruct (C7_skipped_positions_without_preceding_loose
              {| components := [tight "a"; loose "c"]; value := "v" |} query_a_b_c None
              (mk_state [tight "b"; tight "c"] [] [loose "c"] 1 [MF_NAME; 0; 0])
              (loose "c") (tight "b"))
    as (f & Hf & Hskip & _).
  - eapply reaches_pass; [split; reflexivity|apply reaches_refl].
  - repeat split; reflexivity.
  - exists f. split; [exact Hf|].
    destruct Hskip as (Hs & Hp & _); try reflexivity. split; assumption.
Defined.

Lemma incumbent_keeps_against_equivalent_records_witness :
  xcb_xrm_match
    ([ {| components := [tight "x"; tight "y"]; value := "0" |};
       {| components := [loose "b"]; value := "1" |} ]
     ++ {| components := [tight "a"; tight "b"]; value := "2" |}
        :: [ {| components := [tight "a"; tight "b"]; value := "3" |} ])
    {| components := [tight "a"; tight "b"]; value := EmptyString |} None
  = Some "2".
Proof.
  apply (incumbent_keeps_against_equivalent_records
           [ {| components := [tight "x"; tight "y"]; value := "0" |};
             {| components := [loose "b"]; value := "1" |} ]
           [ {| components := [tight "a"; tight "b"]; value := "3" |} ]
           {| components := [tight "a"; tight "b"]; value := "2" |}
           [MF_NAME; MF_NAME]).
  - reflexivity.
  - intros x M Hx HM. apply list_elem_of_singleton in Hx. subst x.
    inversion HM; subst M. intros [|[|p]] Hp; reflexivity.
Defined.

Lemma C2_witness :
  xcb_xrm_match
    ([entry_any_b_c]
     ++ {| components := [tight "a"; tight "b"; tight "c"]; value := "3" |}
        :: [entry_a_any_c])
    query_a_b_c None
  = Some "3".
Proof.
  apply (C2_exact_tight_entry_wins [entry_any_b_c] [entry_a_any_c]
           {| components := [tight "a"; tight "b"; tight "c"]; value := "3" |}
           query_a_b_c None).
  - intros qc Hqc. discriminate Hqc.
  - split; [reflexivity|].
    intros [|[|[|p]]] d Hd; simpl in Hd; inversion Hd; subst d; simpl; auto.
  - intros x M Hx HM. simpl in Hx.
    apply elem_of_cons in Hx as [->|Hx]; [|apply list_elem_of_singleton in Hx; subst x].
    + inversion HM; subst M. exists 0%nat, MF_SKIPPED. split; [reflexivity|left; reflexivity].
    + inversion HM; subst M. exists 1%nat, MF_WILDCARD. split; [reflexivity|right; reflexivity].
Defined.

(** * Further properties *)

(** ** The loop and the recursion over the query positions *)

Lemma kind_of_pass_at use_class st cd cn :
  kind_of_pass use_class st cd cn = kind_at use_class cd cn (cur_comp_class st).
Proof.
  unfold kind_of_pass, kind_at, literal_match.
  destruct (type cd); [|reflexivity].
  destruct (strcmp_eq (name cd) (name cn)); [reflexivity|]. simpl.
  destruct (cur_comp_class st); reflexivity.
Qed.

Lemma drop_lookup_cons {A} (l : list A) p x :
  l !! p = Some x → drop p l = x :: drop (S p) l.
Proof.
  revert p. induction l as [|a l IH]; intros [|p] H; simpl in *; try discriminate.
  - by inversion H.
  - rewrite (IH p H). reflexivity.
Qed.

Section AlignLoop.
Variable use_class : bool.

(** From any state of the loop, the cells the loop still writes are the
    ones the recursion gives, and they are accepted in the same cases. *)
Lemma align_match_loop st :
  ∀ n, loop_inv n st →
    align use_class (cur_comp_name st) (cur_comp_class st) (cur_comp_db st)
    = drop (i st) <$> accepted use_class (match_loop use_class st).
Proof.
  apply (match_loop_ind use_class
    (λ st r, ∀ n, loop_inv n st →
       align use_class (cur_comp_name st) (cur_comp_class st) (cur_comp_db st)
       = drop (i st) <$> accepted use_class r)).
  - intros s Hc n (Hi & Hlen & _). simpl.
    unfold loop_cond in Hc.
    destruct (cur_comp_name s) as [|cn names] eqn:Hn; simpl in *.
    + rewrite andb_true_r.
      destruct (is_NULL (cur_comp_db s) && (negb use_class || is_NULL (cur_comp_class s)));
        simpl; [|reflexivity].
      rewrite drop_ge by lia. reflexivity.
    + rewrite andb_false_r. simpl.
      destruct use_class; simpl in *.
      * destruct (cur_comp_class s); simpl in *; [reflexivity|].
        destruct (cur_comp_db s); [reflexivity|discriminate].
      * destruct (cur_comp_db s); [reflexivity|discriminate].
  - intros s Hc Hb n Hinv. simpl.
    destruct (loop_cond_cursors use_class s Hc) as (cn & names & cd & db & Hn & Hd & Hcc).
    assert (Hat : at_cursors use_class s cd cn).
    { split; [exact Hc|]. rewrite Hn, Hd. auto. }
    pose proof (loop_body_kind use_class n s cd cn Hinv Hat) as Hk.
    rewrite kind_of_pass_at in Hk. rewrite Hn, Hd. simpl.
    assert (use_class && is_NULL (cur_comp_class s) = false) as ->.
    { destruct use_class; [|reflexivity].
      destruct (Hcc eq_refl) as (? & ? & ->). reflexivity. }
    destruct (kind_at use_class cd cn (cur_comp_class s));
      try (destruct Hk as (? & Hk & _); congruence). reflexivity.
  - intros s s' Hp IH n Hinv.
    pose proof (loop_inv_pass use_class n s s' Hinv Hp) as Hinv'.
    specialize (IH n Hinv').
    destruct (loop_pass_frame use_class s s' Hp) as (Hn' & Hc' & _ & Hi' & _).
    destruct (loop_cond_cursors use_class s (proj1 Hp))
      as (cn & names & cd & db & Hn & Hd & Hcc).
    assert (Hat : at_cursors use_class s cd cn).
    { split; [exact (proj1 Hp)|]. rewrite Hn, Hd. auto. }
    pose proof (loop_body_kind use_class n s cd cn Hinv Hat) as Hk.
    pose proof (pass_final_cell use_class n s cd cn Hinv Hat) as Hcell.
    rewrite (match_loop_pass use_class s s' Hp) in Hcell.
    rewrite kind_of_pass_at in Hk, Hcell.
    rewrite Hn' , Hc', Hi' in IH. rewrite Hn, Hd in *. simpl in *.
    assert (use_class && is_NULL (cur_comp_class s) = false) as ->.
    { destruct use_class; [|reflexivity].
      destruct (Hcc eq_refl) as (? & ? & ->). reflexivity. }
    assert (Hdrop : ∀ fl, accepted use_class (match_loop use_class s') = Some fl →
                          fl = m_flags (final_state (match_loop use_class s'))).
    { intros fl. destruct (match_loop use_class s'); simpl; [discriminate|].
      destruct (_ && _); [|discriminate]. by intros [= <-]. }
    destruct Hp as [_ Hb].
    destruct (kind_at use_class cd cn (cur_comp_class s)) eqn:Hkind;
      try (destruct Hk as (s1 & Hb1 & Hdb1 & _); rewrite Hb in Hb1;
           inversion Hb1; subst s1; rewrite Hdb1 in IH; rewrite IH;
           destruct (accepted use_class (match_loop use_class s')) as [fl|] eqn:Hacc;
           simpl; [|reflexivity];
           rewrite (Hdrop fl eq_refl) at 1 2; 
           rewrite (drop_lookup_cons _ _ _ Hcell); reflexivity).
    congruence.
Qed.

End AlignLoop.

(** The record of an entry is the one the recursion gives. *)
Lemma record_of_align query_name query_class e :
  record_of query_name query_class e
  = align (use_class_of query_class) (components query_name)
      (class_components query_class) (components e).
Proof.
  pose proof (align_match_loop (use_class_of query_class)
                (match_init e query_name query_class
                   (__match_new (xcb_xrm_entry_num_components query_name)))
                _ (loop_inv_init e query_name query_class)) as H.
  simpl in H. unfold class_components. rewrite H.
  unfold record_of, __match_matches, accepted.
  destruct (match_loop _ _); simpl; [reflexivity|].
  destruct (_ && _); reflexivity.
Qed.

(** ** Properties of the recursion *)

Lemma kind_at_facts use_class cd cn cls :
  match kind_at use_class cd cn cls with
  | ByName => type cd = CT_NORMAL ∧ name cd = name cn
  | ByClass =>
      type cd = CT_NORMAL ∧ use_class = true
      ∧ ∃ cc, head cls = Some cc ∧ name cd = name cc
  | ByWildcard => type cd = CT_WILDCARD
  | BySkip =>
      type cd = CT_NORMAL ∧ binding_type cd = BT_LOOSE ∧ name cd ≠ name cn
  | ByMismatch =>
      type cd = CT_NORMAL ∧ binding_type cd = BT_TIGHT ∧ name cd ≠ name cn
      ∧ ¬ (use_class = true ∧ ∃ cc, head cls = Some cc ∧ name cd = name cc)
  end.
Proof.
  unfold kind_at, strcmp_eq.
  destruct (type cd); [|reflexivity].
  destruct (String.eqb_spec (name cd) (name cn)) as [He|Hne]; [auto|].
  destruct use_class; simpl.
  - destruct cls as [|cc cls]; simpl.
    + destruct (binding_type cd); repeat split; auto.
      intros (_ & ? & ? & _). discriminate.
    + destruct (String.eqb_spec (name cd) (name cc)) as [He|Hne']; [eauto 6|].
      destruct (binding_type cd); repeat split; auto.
      intros (_ & ? & [= <-] & ?). contradiction.
  - destruct (binding_type cd); repeat split; auto. intros (? & _). discriminate.
Qed.

Lemma align_nil_inv use_class cls db M :
  align use_class [] cls db = Some M →
  db = [] ∧ M = [] ∧ (use_class = true → cls = []).
Proof.
  simpl. destruct db; simpl; [|discriminate].
  destruct use_class; simpl.
  - destruct cls; simpl; [|discriminate]. by intros [= <-].
  - intros [= <-]. repeat split. discriminate.
Qed.

(** What an accepted alignment does at its first position. *)
Lemma align_cons_inv use_class cn names cls db M :
  align use_class (cn :: names) cls db = Some M →
  ∃ cd db' M',
    db = cd :: db' ∧ (use_class = true → cls ≠ [])
    ∧ kind_at use_class cd cn cls ≠ ByMismatch
    ∧ M = cell_of_pass (kind_at use_class cd cn cls) cd :: M'
    ∧ align use_class names (tail cls)
        (match kind_at use_class cd cn cls with
         | BySkip => db
         | _ => db'
         end) = Some M'.
Proof.
  simpl. destruct (use_class && is_NULL cls) eqn:Hcls; [discriminate|].
  destruct db as [|cd db']; [discriminate|].
  intros H. exists cd, db'.
  assert (Hne : use_class = true → cls ≠ []).
  { intros ->. destruct cls; [discriminate|discriminate]. }
  destruct (kind_at use_class cd cn cls); try discriminate;
    apply fmap_Some in H as (M' & HM' & ->); exists M'; repeat split; auto; discriminate.
Qed.

Lemma align_cons_eq use_class cn names cls cd db' :
  (use_class = true → cls ≠ []) →
  align use_class (cn :: names) cls (cd :: db')
  = match kind_at use_class cd cn cls with
    | ByMismatch => None
    | BySkip => cons MF_SKIPPED <$> align use_class names (tail cls) (cd :: db')
    | k => cons (cell_of_pass k cd) <$> align use_class names (tail cls) db'
    end.
Proof.
  intros Hne. simpl.
  assert (use_class && is_NULL cls = false) as ->.
  { destruct use_class; [|reflexivity]. destruct cls; [by destruct Hne|reflexivity]. }
  destruct (kind_at use_class cd cn cls); reflexivity.
Qed.

Lemma cell_of_pass_record k cd : k ≠ ByMismatch → cell_of_pass k cd ∈ record_cells.
Proof.
  unfold cell_of_pass, binding_bit, record_cells. intros Hk.
  destruct k, (binding_type cd); try congruence; rewrite !elem_of_cons; simpl; tauto.
Qed.

Lemma cell_of_pass_inj k1 cd1 k2 cd2 :
  k1 ≠ ByMismatch → k2 ≠ ByMismatch →
  cell_of_pass k1 cd1 = cell_of_pass k2 cd2 →
  k1 = k2 ∧ (k1 ≠ BySkip → binding_type cd1 = binding_type cd2).
Proof.
  unfold cell_of_pass, binding_bit. intros H1 H2.
  destruct k1, k2, (binding_type cd1), (binding_type cd2);
    try congruence; vm_compute; intros H; try discriminate; split; congruence.
Qed.

Lemma cell_of_pass_skipped k cd :
  k ≠ ByMismatch → (cell_of_pass k cd = MF_SKIPPED ↔ k = BySkip).
Proof.
  unfold cell_of_pass, binding_bit. intros Hk.
  destruct k, (binding_type cd); try congruence; vm_compute; split; congruence.
Qed.

Section Recursion.
Variable use_class : bool.

Lemma align_cells names :
  ∀ cls db M, align use_class names cls db = Some M →
    length M = length names ∧ Forall (λ f, f ∈ record_cells) M.
Proof.
  induction names as [|cn names IH]; intros cls db M H.
  - apply align_nil_inv in H as (_ & -> & _). split; [reflexivity|constructor].
  - apply align_cons_inv in H as (cd & db' & M' & -> & _ & Hk & -> & H).
    apply IH in H as [Hl Hall]. split; [simpl; lia|].
    constructor; [by apply cell_of_pass_record|exact Hall].
Qed.

Lemma align_count names :
  ∀ cls db M, align use_class names cls db = Some M →
    (length db + count_occ Z.eq_dec M MF_SKIPPED = length names)%nat.
Proof.
  induction names as [|cn names IH]; intros cls db M H.
  - apply align_nil_inv in H as (-> & -> & _). reflexivity.
  - apply align_cons_inv in H as (cd & db' & M' & -> & _ & Hk & -> & H).
    apply IH in H. pose proof (cell_of_pass_skipped _ cd Hk) as Hs.
    destruct (kind_at use_class cd cn cls) eqn:Hkind; try congruence;
      try (rewrite count_occ_cons_neq by (intros He; apply Hs in He; discriminate);
           simpl in *; lia).
    rewrite count_occ_cons_eq by reflexivity. simpl in *. lia.
Qed.

Lemma align_sound names :
  ∀ cls db M, align use_class names cls db = Some M →
    spec_aligned use_class db names cls.
Proof.
  induction names as [|cn names IH]; intros cls db M H.
  - apply align_nil_inv in H as (-> & _). constructor.
  - apply align_cons_inv in H as (cd & db' & M' & -> & _ & Hk & -> & H).
    apply IH in H. pose proof (kind_at_facts use_class cd cn cls) as Hf.
    destruct (kind_at use_class cd cn cls); try congruence.
    + apply spec_aligned_fit; [|exact H]. right; left. tauto.
    + apply spec_aligned_fit; [|exact H]. right; right. tauto.
    + apply spec_aligned_fit; [|exact H]. left. exact Hf.
    + apply spec_aligned_skip; [tauto|exact H].
Qed.

Lemma align_tight_complete db :
  Forall (λ cd, binding_type cd = BT_TIGHT) db →
  ∀ names cls,
    (use_class = true → length cls = length names) →
    spec_aligned use_class db names cls →
    is_Some (align use_class names cls db).
Proof.
  intros Htight names cls Hlen Hsp. revert Htight Hlen.
  induction Hsp as [cls|cd db cn names cls Hfit _ IH|cd db cn names cls Hl _ _];
    intros Htight Hlen.
  - simpl. destruct use_class; simpl; [|eauto].
    specialize (Hlen eq_refl). destruct cls; [eauto|discriminate].
  - inversion Htight as [|? ? Hcd Hdb]; subst.
    assert (Hne : use_class = true → cls ≠ []).
    { intros Huc ->. specialize (Hlen Huc). discriminate. }
    rewrite align_cons_eq by exact Hne.
    destruct IH as [M HM]; [exact Hdb| |].
    { intros Huc. specialize (Hlen Huc). destruct cls; simpl in *; [discriminate|lia]. }
    pose proof (kind_at_facts use_class cd cn cls) as Hf.
    destruct (kind_at use_class cd cn cls); rewrite ?HM; simpl; eauto.
    + destruct Hf as (_ & Hb & _). congruence.
    + destruct Hf as (Hty & _ & Hn & Hc).
      destruct Hfit as [Hw|[He|Hcl]]; [congruence|contradiction|tauto].
  - inversion Htight; subst. congruence.
Qed.

Lemma align_wildcards db :
  Forall (λ cd, type cd = CT_WILDCARD) db →
  ∀ names cls,
    length db = length names →
    (use_class = true → length cls = length names) →
    align use_class names cls db
    = Some ((λ cd, Z.lor (binding_bit cd) MF_WILDCARD) <$> db).
Proof.
  induction 1 as [|cd db Hcd _ IH]; intros names cls Hl Hlen.
  - destruct names; [|discriminate]. simpl.
    destruct use_class; simpl; [|reflexivity].
    specialize (Hlen eq_refl). destruct cls; [reflexivity|discriminate].
  - destruct names as [|cn names]; [discriminate|].
    rewrite align_cons_eq.
    + unfold kind_at. rewrite Hcd. rewrite IH; [reflexivity|simpl in Hl; lia|].
      intros Huc. specialize (Hlen Huc). destruct cls; simpl in *; [discriminate|lia].
    + intros Huc ->. specialize (Hlen Huc). discriminate.
Qed.

Lemma align_injective names :
  ∀ cls db1 db2 M,
    align use_class names cls db1 = Some M →
    align use_class names cls db2 = Some M →
    Forall2 same_component db1 db2.
Proof.
  induction names as [|cn names IH]; intros cls db1 db2 M H1 H2.
  - apply align_nil_inv in H1 as (-> & _). apply align_nil_inv in H2 as (-> & _).
    constructor.
  - apply align_cons_inv in H1 as (cd1 & db1' & M1 & -> & _ & Hk1 & -> & H1).
    apply align_cons_inv in H2 as (cd2 & db2' & M2 & -> & _ & Hk2 & HM & H2).
    injection HM as Hcell HM'. subst M2.
    destruct (cell_of_pass_inj _ _ _ _ Hk1 Hk2 Hcell) as [Hk Hb].
    pose proof (kind_at_facts use_class cd1 cn cls) as Hf1.
    pose proof (kind_at_facts use_class cd2 cn cls) as Hf2.
    rewrite <- Hk in *.
    destruct (kind_at use_class cd1 cn cls) eqn:Hkind; try congruence.
    + constructor; [|by eapply IH].
      specialize (Hb ltac:(discriminate)).
      destruct Hf1 as (? & ?), Hf2 as (? & ?). repeat split; congruence.
    + constructor; [|by eapply IH].
      specialize (Hb ltac:(discriminate)).
      destruct Hf1 as (? & _ & cc1 & Hh1 & ?), Hf2 as (? & _ & cc2 & Hh2 & ?).
      repeat split; congruence.
    + constructor; [|by eapply IH].
      specialize (Hb ltac:(discriminate)). repeat split; congruence.
    + by eapply IH.
Qed.

End Recursion.

Lemma align_no_class names :
  ∀ cls db M, align false names cls db = Some M →
    Forall (λ f, has_flag f MF_CLASS = false) M.
Proof.
  induction names as [|cn names IH]; intros cls db M H.
  - apply align_nil_inv in H as (_ & -> & _). constructor.
  - apply align_cons_inv in H as (cd & db' & M' & -> & _ & Hk & -> & H).
    apply IH in H. constructor; [|exact H].
    pose proof (kind_at_facts false cd cn cls) as Hf.
    unfold cell_of_pass, binding_bit.
    destruct (kind_at false cd cn cls), (binding_type cd); try reflexivity;
      try congruence; destruct Hf as (_ & ? & _); discriminate.
Qed.

(** With the name given again as the class, the class never matches where
    the name does not. *)
Lemma align_class_is_name names :
  ∀ db, align true names names db = align false names [] db.
Proof.
  induction names as [|cn names IH]; intros db; [by destruct db|].
  destruct db as [|cd db']; [reflexivity|].
  rewrite !align_cons_eq by (intros; discriminate).
  assert (kind_at true cd cn (cn :: names) = kind_at false cd cn []) as ->.
  { unfold kind_at. destruct (type cd); [|reflexivity].
    destruct (strcmp_eq (name cd) (name cn)); reflexivity. }
  simpl. rewrite !IH. reflexivity.
Qed.

(** ** Properties of the match records *)

Lemma query_wf_class_length query_name query_class :
  query_wf query_name query_class →
  use_class_of query_class = true →
  length (class_components query_class) = length (components query_name).
Proof.
  intros Hwf Huc. destruct query_class as [qc|]; [|discriminate].
  apply (Hwf qc eq_refl).
Qed.

(** Property X1.  The record of an entry that aligns has one cell for
    each query position, and every cell holds exactly one of the four kinds
    [NAME], [CLASS], [WILDCARD], [SKIPPED], the first three with or without
    [PRECEDING_LOOSE]: no cell is left empty, none holds two kinds. *)
Theorem record_cells_hold_one_kind query_name query_class e M :
  record_of query_name query_class e = Some M →
  length M = xcb_xrm_entry_num_components query_name
  ∧ Forall (λ f, f ∈ record_cells) M.
Proof. rewrite record_of_align. apply align_cells. Qed.

(** Property X2.  In the record of an entry that aligns, the [SKIPPED]
    cells are the query positions the entry has no component for: their
    number and the number of entry components add up to the number of
    query positions.  An entry with more components than the query never
    aligns. *)
Theorem record_skips_complete_the_entry query_name query_class e M :
  record_of query_name query_class e = Some M →
  (length (components e) + count_occ Z.eq_dec M MF_SKIPPED
   = xcb_xrm_entry_num_components query_name)%nat
  ∧ (length (components e) ≤ xcb_xrm_entry_num_components query_name)%nat.
Proof.
  rewrite record_of_align. intros H. apply align_count in H.
  unfold xcb_xrm_entry_num_components. lia.
Qed.

(** Property X5.  Against a query without a class, no cell of a record
    holds [CLASS]. *)
Theorem name_only_query_never_marks_class query_name e M :
  record_of query_name None e = Some M →
  Forall (λ f, has_flag f MF_CLASS = false) M.
Proof. rewrite record_of_align. apply align_no_class. Qed.

(** Property X4.  When the first component of an entry has a tight
    binding and the entry aligns, that component is bound to query
    position 0: it is a wildcard or equals the first name or class
    component of the query, and cell 0 holds a match flag without
    [SKIPPED] and without [PRECEDING_LOOSE]. *)
Theorem leading_tight_component_sits_at_position_0
    query_name query_class e cd rest M :
  components e = cd :: rest → binding_type cd = BT_TIGHT →
  record_of query_name query_class e = Some M →
  ∃ cn f,
    head (components query_name) = Some cn ∧ M !! 0%nat = Some f
    ∧ matched_flag f = true ∧ has_flag f MF_SKIPPED = false
    ∧ has_flag f MF_PRECEDING_LOOSE = false
    ∧ component_fits (use_class_of query_class) cd cn (class_components query_class).
Proof.
  intros He Hb. rewrite record_of_align, He.
  destruct (components query_name) as [|cn names]; intros H.
  - apply align_nil_inv in H as (? & _). discriminate.
  - apply align_cons_inv in H as (cd' & db' & M' & [= <- <-] & _ & Hk & -> & _).
    exists cn, (cell_of_pass (kind_at (use_class_of query_class) cd cn
                               (class_components query_class)) cd).
    pose proof (kind_at_facts (use_class_of query_class) cd cn
                  (class_components query_class)) as Hf.
    unfold cell_of_pass, binding_bit, component_fits. rewrite Hb.
    destruct (kind_at _ cd cn _); try congruence;
      try (destruct Hf as (_ & ? & _); congruence);
      repeat split; try reflexivity; tauto.
Qed.

(** Property X6.  The matcher accepts only entries that match the query
    in the sense of the resource manager: when [__match_matches] succeeds,
    the components of the entry, in order, fit query positions so that
    tight components follow each other directly, only loose bindings leave
    positions out, and the first and last positions are accounted for. *)
Theorem accepted_entries_are_spec_aligned query_name query_class e M :
  record_of query_name query_class e = Some M →
  spec_aligned (use_class_of query_class) (components e) (components query_name)
    (class_components query_class).
Proof. rewrite record_of_align. apply align_sound. Qed.

(** Property X7.  For an entry whose bindings are all tight, the matcher
    is exact: the entry is accepted if and only if it matches the query
    in the sense of the resource manager. *)
Theorem tight_entries_are_accepted_iff_spec_aligned query_name query_class e :
  query_wf query_name query_class →
  Forall (λ cd, binding_type cd = BT_TIGHT) (components e) →
  (is_Some (record_of query_name query_class e)
   ↔ spec_aligned (use_class_of query_class) (components e) (components query_name)
       (class_components query_class)).
Proof.
  intros Hwf Htight. rewrite record_of_align. split.
  - intros [M HM]. by eapply align_sound.
  - apply align_tight_complete; [exact Htight|]. by apply query_wf_class_length.
Qed.

(** Property X8.  An entry made of wildcards only aligns against every
    query with as many components as the entry, whatever the names; each
    cell holds [WILDCARD], with [PRECEDING_LOOSE] where the wildcard has a
    loose binding. *)
Theorem wildcard_entries_match_every_query_of_their_length
    query_name query_class e :
  query_wf query_name query_class →
  Forall (λ cd, type cd = CT_WILDCARD) (components e) →
  length (components e) = xcb_xrm_entry_num_components query_name →
  record_of query_name query_class e
  = Some ((λ cd, Z.lor (binding_bit cd) MF_WILDCARD) <$> components e).
Proof.
  intros Hwf Hw Hl. rewrite record_of_align.
  apply align_wildcards; [exact Hw|exact Hl|]. by apply query_wf_class_length.
Qed.

(** ** Records and comparisons *)

Lemma record_cells_not_decisive f g :
  f ∈ record_cells → g ∈ record_cells →
  compare_at f g = false → compare_at g f = false → f = g.
Proof.
  unfold record_cells. rewrite !elem_of_cons, !elem_of_nil.
  intros [->|[->|[->|[->|[->|[->|[->|[]]]]]]]] [->|[->|[->|[->|[->|[->|[->|[]]]]]]]];
    vm_compute; congruence.
Qed.

Lemma record_cells_not_beaten_by_itself f :
  f ∈ record_cells → compare_at f f = false.
Proof.
  unfold record_cells. rewrite !elem_of_cons, !elem_of_nil.
  intros [->|[->|[->|[->|[->|[->|[->|[]]]]]]]]; reflexivity.
Qed.

(** Property X11.  For the records of two entries that align against the
    same query, [__match_compare] fails in both directions exactly when
    the two records are equal: of two different records, at least one
    replaces the other. *)
Theorem comparisons_fail_both_ways_iff_records_equal
    query_name query_class e1 e2 M1 M2 :
  let n := xcb_xrm_entry_num_components query_name in
  record_of query_name query_class e1 = Some M1 →
  record_of query_name query_class e2 = Some M2 →
  (__match_compare n (match_of e1 M1) (match_of e2 M2) = false
   ∧ __match_compare n (match_of e2 M2) (match_of e1 M1) = false)
  ↔ M1 = M2.
Proof.
  intros n H1 H2.
  destruct (align_cells _ _ _ _ _ (eq_trans (eq_sym (record_of_align _ _ _)) H1))
    as [Hl1 Hc1].
  destruct (align_cells _ _ _ _ _ (eq_trans (eq_sym (record_of_align _ _ _)) H2))
    as [Hl2 Hc2].
  change (length (components query_name)) with n in Hl1, Hl2.
  unfold __match_compare. simpl.
  rewrite Forall_lookup in Hc1, Hc2. split.
  - intros [Ha Hb]. apply list_eq_same_length with n; [exact Hl2|exact Hl1|].
    intros p x y Hp Hx Hy.
    pose proof (proj1 (compare_from_false _ _ _ _) Ha p ltac:(lia)) as Ha'.
    pose proof (proj1 (compare_from_false _ _ _ _) Hb p ltac:(lia)) as Hb'.
    rewrite (list_lookup_total_correct _ _ _ Hx), (list_lookup_total_correct _ _ _ Hy)
      in Ha', Hb'.
    eapply record_cells_not_decisive; eauto.
  - intros <-. assert (compare_from n 0 M1 M1 = false) as ->; [|tauto].
    apply compare_from_false. intros p Hp.
    destruct (lookup_lt_is_Some_2 M1 p ltac:(lia)) as [f Hf].
    rewrite (list_lookup_total_correct _ _ _ Hf).
    apply record_cells_not_beaten_by_itself. eauto.
Qed.

Lemma equivalent_records_equal query_name query_class e1 e2 M1 M2 :
  record_of query_name query_class e1 = Some M1 →
  record_of query_name query_class e2 = Some M2 →
  equivalent_records (xcb_xrm_entry_num_components query_name) M1 M2 →
  M1 = M2.
Proof.
  intros H1 H2 Heq.
  destruct (align_cells _ _ _ _ _ (eq_trans (eq_sym (record_of_align _ _ _)) H1))
    as [Hl1 Hc1].
  destruct (align_cells _ _ _ _ _ (eq_trans (eq_sym (record_of_align _ _ _)) H2))
    as [Hl2 Hc2].
  rewrite Forall_lookup in Hc1, Hc2.
  apply list_eq_same_length with (xcb_xrm_entry_num_components query_name);
    [exact Hl2|exact Hl1|].
  intros p x y Hp Hx Hy. specialize (Heq p Hp).
  rewrite (list_lookup_total_correct _ _ _ Hx), (list_lookup_total_correct _ _ _ Hy) in Heq.
  unfold decisive in Heq. apply orb_false_iff in Heq as [Ha Hb].
  rewrite <- compare_at_beats in Ha, Hb.
  eapply record_cells_not_decisive; eauto.
Qed.

(** Property X12.  Two entries whose records rules 1-3 do not tell apart
    have the same specifier: component by component the same kind, the
    same binding and, for names, the same name.  The rule that the earlier
    entry wins a tie therefore concerns entries with one and the same
    specifier only. *)
Theorem equivalent_records_come_from_one_specifier
    query_name query_class e1 e2 M1 M2 :
  record_of query_name query_class e1 = Some M1 →
  record_of query_name query_class e2 = Some M2 →
  equivalent_records (xcb_xrm_entry_num_components query_name) M1 M2 →
  Forall2 same_component (components e1) (components e2).
Proof.
  intros H1 H2 Heq.
  pose proof (equivalent_records_equal _ _ _ _ _ _ H1 H2 Heq) as <-.
  rewrite record_of_align in H1, H2. by eapply align_injective.
Qed.

Lemma compare_from_first n :
  ∀ i0 best candidate,
    compare_from n i0 best candidate = true
    ↔ ∃ p, (i0 ≤ p < i0 + n)%nat
           ∧ compare_at (best !!! p) (candidate !!! p) = true
           ∧ ∀ q, (i0 ≤ q < p)%nat → compare_at (best !!! q) (candidate !!! q) = false.
Proof.
  induction n as [|n IH]; intros i0 best candidate; simpl.
  - split; [discriminate|]. intros (p & Hp & _). lia.
  - destruct (compare_at (best !!! i0) (candidate !!! i0)) eqn:Hc.
    + split; [|reflexivity]. intros _. exists i0. repeat split; [lia..|exact Hc|].
      intros q Hq. lia.
    + rewrite IH. split; intros (p & Hp & Hat & Hbefore).
      * exists p. repeat split; [lia..|exact Hat|].
        intros q Hq. destruct (decide (q = i0)) as [->|]; [exact Hc|]. apply Hbefore. lia.
      * exists p. assert (p ≠ i0) by congruence.
        repeat split; [lia..|exact Hat|]. intros q Hq. apply Hbefore. lia.
Qed.

(** Property X10.  [__match_compare] returns [SUCCESS] exactly when there
    is a position at which rules 1-3 favour the candidate; the scan stops
    at the first such position, and positions before it at which the rules
    favour the incumbent do not stop it. *)
Theorem match_compare_succeeds_at_first_win_of_candidate n best candidate :
  __match_compare n best candidate = true
  ↔ ∃ p, (p < n)%nat
         ∧ beats (flags candidate !!! p) (flags best !!! p) = true
         ∧ ∀ q, (q < p)%nat → beats (flags candidate !!! q) (flags best !!! q) = false.
Proof.
  unfold __match_compare. rewrite compare_from_first.
  split; intros (p & Hp & Hat & Hbefore); exists p; (split; [lia|]).
  - rewrite <- compare_at_beats. split; [exact Hat|].
    intros q Hq. rewrite <- compare_at_beats. apply Hbefore. lia.
  - rewrite compare_at_beats. split; [exact Hat|].
    intros q Hq. rewrite compare_at_beats. apply Hbefore. lia.
Qed.

(** ** Properties of the selection *)

(** Property X13.  An entry that does not align against the query has no
    influence on the result, wherever it stands in the database. *)
Theorem unmatched_entry_is_ignored D1 D2 x query_name query_class :
  record_of query_name query_class x = None →
  xcb_xrm_match (D1 ++ x :: D2) query_name query_class
  = xcb_xrm_match (D1 ++ D2) query_name query_class.
Proof.
  intros Hx. unfold xcb_xrm_match, best_match_of.
  rewrite !entries_loop_app, entries_loop_cons, (match_step_unmatched _ _ _ _ Hx).
  reflexivity.
Qed.

Lemma record_of_with_value f query_name query_class e :
  record_of query_name query_class (with_value f e) = record_of query_name query_class e.
Proof. rewrite !record_of_align. reflexivity. Qed.

Lemma entries_loop_with_value f query_name query_class entries :
  ∀ best,
    entries_loop query_name query_class
      ((λ b, {| entry := with_value f <$> entry b; flags := flags b |}) <$> best)
      (with_value f <$> entries)
    = (λ b, {| entry := with_value f <$> entry b; flags := flags b |})
        <$> entries_loop query_name query_class best entries.
Proof.
  induction entries as [|e db IH]; intros best; [reflexivity|].
  rewrite fmap_cons, !entries_loop_cons, <- IH. f_equal.
  pose proof (record_of_with_value f query_name query_class e) as Hr.
  destruct (record_of query_name query_class e) as [M|] eqn:He.
  - destruct best as [b|]; simpl.
    + rewrite (match_step_compare _ _ _ _ _ Hr), (match_step_compare _ _ _ _ _ He). simpl.
      destruct (compare_from _ _ _ _); reflexivity.
    + rewrite (match_step_first _ _ _ _ Hr), (match_step_first _ _ _ _ He). reflexivity.
  - rewrite (match_step_unmatched _ _ _ _ Hr), (match_step_unmatched _ _ _ _ He).
    reflexivity.
Qed.

(** Property X16.  The values of the entries play no part in the
    selection: rewriting every value with a function rewrites the result
    with that function. *)
Theorem values_play_no_part_in_the_selection f database query_name query_class :
  xcb_xrm_match (with_value f <$> database) query_name query_class
  = f <$> xcb_xrm_match database query_name query_class.
Proof.
  unfold xcb_xrm_match, best_match_of.
  pose proof (entries_loop_with_value f query_name query_class database None) as H.
  simpl in H. rewrite H.
  destruct (entries_loop query_name query_class None database) as [b|]; [|reflexivity].
  simpl. destruct (entry b); reflexivity.
Qed.

Lemma entries_loop_winner query_name query_class entries :
  ∀ best b,
    entries_loop query_name query_class best entries = Some b →
    (best = Some b
     ∧ ∀ x M, x ∈ entries → record_of query_name query_class x = Some M →
         compare_from (xcb_xrm_entry_num_components query_name) 0 (flags b) M = false)
    ∨ ∃ D1 e D2,
        entries = D1 ++ e :: D2 ∧ b = match_of e (flags b)
        ∧ record_of query_name query_class e = Some (flags b)
        ∧ (∀ x M, x ∈ D2 → record_of query_name query_class x = Some M →
             compare_from (xcb_xrm_entry_num_components query_name) 0 (flags b) M = false)
        ∧ (∀ b0, entries_loop query_name query_class best D1 = Some b0 →
             compare_from (xcb_xrm_entry_num_components query_name) 0
               (flags b0) (flags b) = true).
Proof.
  induction entries as [|x rest IH]; intros best b H.
  - left. split; [exact H|]. intros ? ? Hx. by inversion Hx.
  - rewrite entries_loop_cons in H.
    apply IH in H as [[Hbest Hrest]|(D1 & e & D2 & -> & Hb & He & Hlater & Hearlier)].
    + destruct (record_of query_name query_class x) as [M|] eqn:Hx.
      * destruct best as [b0|].
        -- rewrite (match_step_compare _ _ _ _ _ Hx) in Hbest.
           destruct (compare_from _ _ (flags b0) M) eqn:Hc; inversion Hbest; subst.
           ++ right. exists [], x, rest. repeat split; auto.
              intros b1 [= <-]. exact Hc.
           ++ left. split; [reflexivity|]. intros y M' Hy HM'.
              inversion Hy; subst; [|by eapply Hrest]. congruence.
        -- rewrite (match_step_first _ _ _ _ Hx) in Hbest. inversion Hbest; subst.
           right. exists [], x, rest. repeat split; auto. intros b1 [=].
      * rewrite (match_step_unmatched _ _ _ _ Hx) in Hbest. left. split; [exact Hbest|].
        intros y M' Hy HM'. inversion Hy; subst; [congruence|by eapply Hrest].
    + right. exists (x :: D1), e, D2. repeat split; auto.
Qed.

(** Property X15.  The value returned is the value of an entry of the
    database that aligns against the query, that replaced the best match
    of the entries before it (if there was one), and that no aligning
    entry after it replaces. *)
Theorem winner_is_not_beaten_by_later_entries database query_name query_class v :
  let n := xcb_xrm_entry_num_components query_name in
  xcb_xrm_match database query_name query_class = Some v →
  ∃ D1 e D2 M,
    database = D1 ++ e :: D2 ∧ value e = v
    ∧ record_of query_name query_class e = Some M
    ∧ (∀ x M', x ∈ D2 → record_of query_name query_class x = Some M' →
         __match_compare n (match_of e M) (match_of x M') = false)
    ∧ (∀ b0, best_match_of D1 query_name query_class = Some b0 →
         __match_compare n b0 (match_of e M) = true).
Proof.
  intros n. unfold xcb_xrm_match, best_match_of.
  destruct (entries_loop query_name query_class None database) as [b|] eqn:Hb;
    [|discriminate].
  apply entries_loop_winner in Hb
    as [[Hbest _]|(D1 & e & D2 & -> & Hbe & He & Hlater & Hearlier)]; [discriminate|].
  rewrite Hbe. simpl. intros [= <-].
  exists D1, e, D2, (flags b). repeat split; auto.
Qed.

Lemma entries_loop_ext query_name qc1 qc2 entries :
  (∀ e, record_of query_name qc1 e = record_of query_name qc2 e) →
  ∀ best, entries_loop query_name qc1 best entries
          = entries_loop query_name qc2 best entries.
Proof.
  intros Hext. induction entries as [|e db IH]; intros best; [reflexivity|].
  rewrite !entries_loop_cons, IH. f_equal.
  pose proof (Hext e) as He.
  destruct (record_of query_name qc2 e) as [M|] eqn:H2.
  - destruct best as [b|].
    + by rewrite (match_step_compare _ _ _ _ _ He), (match_step_compare _ _ _ _ _ H2).
    + by rewrite (match_step_first _ _ _ _ He), (match_step_first _ _ _ _ H2).
  - by rewrite (match_step_unmatched _ _ _ _ He), (match_step_unmatched _ _ _ _ H2).
Qed.

Lemma xcb_xrm_match_class_is_name database query_name :
  xcb_xrm_match database query_name (Some query_name)
  = xcb_xrm_match database query_name None.
Proof.
  unfold xcb_xrm_match, best_match_of.
  rewrite (entries_loop_ext query_name (Some query_name) None); [reflexivity|].
  intros e. rewrite !record_of_align. apply align_class_is_name.
Qed.

(** Property X17.  Passing the name string again as the class string gives
    the result of passing no class, for every parser, database and name. *)
Theorem name_given_as_class_is_no_class
    (parse : string → bool → option xcb_xrm_entry_t) database res_name :
  xcb_xrm_resource_get_string parse database res_name res_name
  = xcb_xrm_resource_get_string parse database res_name None.
Proof.
  unfold xcb_xrm_resource_get_string, __resource_get.
  destruct database as [db|]; [|reflexivity].
  destruct (is_NULL db); [reflexivity|].
  destruct res_name as [s|]; [|reflexivity].
  destruct (parse s true) as [qn|] eqn:Hs; [|reflexivity].
  destruct (bool_decide (0 < strlen s)%nat); [|reflexivity].
  rewrite bool_decide_eq_false_2 by auto.
  apply xcb_xrm_match_class_is_name.
Qed.

(** ** Properties of the typed lookups *)

Lemma resource_get_string_Some
    (parse : string → bool → option xcb_xrm_entry_t) database res_name res_class v :
  xcb_xrm_resource_get_string parse database res_name res_class = Some v →
  ∃ db s query_name e,
    database = Some db ∧ res_name = Some s ∧ parse s true = Some query_name
    ∧ e ∈ db ∧ is_Some (record_of query_name (class_query parse res_class) e)
    ∧ value e = v.
Proof.
  unfold xcb_xrm_resource_get_string, __resource_get, class_query.
  destruct database as [db|]; [|discriminate].
  destruct (is_NULL db); [discriminate|].
  destruct res_name as [s|]; [|discriminate].
  destruct (parse s true) as [qn|] eqn:Hs; [|discriminate].
  intros H. exists db, s, qn.
  assert (∃ e, e ∈ db ∧ is_Some (record_of qn
            match res_class with
            | Some c => if bool_decide (0 < strlen c)%nat then parse c true else None
            | None => None
            end e) ∧ value e = v) as (e & ? & ? & ?); [|exists e; auto 10].
  destruct res_class as [c|]; [|by apply xcb_xrm_match_Some].
  destruct (bool_decide (0 < strlen c)%nat); [|by apply xcb_xrm_match_Some].
  destruct (parse c true) as [qc|]; [|discriminate].
  destruct (bool_decide _); [discriminate|]. by apply xcb_xrm_match_Some.
Qed.

(** Property X18.  When [xcb_xrm_resource_get_long] returns a number other
    than [LONG_MIN], the database has an entry that aligns against the
    query and whose value is the decimal numeral of that number (with the
    integer conversion as the header documents it). *)
Theorem get_long_other_than_sentinel_comes_from_an_entry
    (parse : string → bool → option xcb_xrm_entry_t) database res_name res_class :
  xcb_xrm_resource_get_long parse database res_name res_class ≠ LONG_MIN →
  ∃ db s query_name e,
    database = Some db ∧ res_name = Some s ∧ parse s true = Some query_name
    ∧ e ∈ db ∧ is_Some (record_of query_name (class_query parse res_class) e)
    ∧ parse_long (value e)
      = Some (xcb_xrm_resource_get_long parse database res_name res_class).
Proof.
  unfold xcb_xrm_resource_get_long.
  destruct (xcb_xrm_resource_get_string parse database res_name res_class) as [v|] eqn:Hv;
    simpl; [|congruence].
  apply resource_get_string_Some in Hv as (db & s & qn & e & ? & ? & ? & ? & ? & <-).
  intros Hne. exists db, s, qn, e. repeat split; auto.
  destruct (parse_long (value e)); simpl in *; congruence.
Qed.

(** Property X19.  When [xcb_xrm_resource_get_bool] returns true, the
    database has an entry that aligns against the query and whose value
    is a non-zero integer or one of the words for true (with the boolean
    conversion as the header documents it). *)
Theorem get_bool_true_comes_from_an_entry
    (parse : string → bool → option xcb_xrm_entry_t) database res_name res_class :
  xcb_xrm_resource_get_bool parse database res_name res_class = true →
  ∃ db s query_name e,
    database = Some db ∧ res_name = Some s ∧ parse s true = Some query_name
    ∧ e ∈ db ∧ is_Some (record_of query_name (class_query parse res_class) e)
    ∧ ((∃ n, parse_long (value e) = Some n ∧ n ≠ 0)
       ∨ (parse_long (value e) = None ∧ is_true_word (value e) = true)).
Proof.
  unfold xcb_xrm_resource_get_bool.
  destruct (xcb_xrm_resource_get_string parse database res_name res_class) as [v|] eqn:Hv;
    simpl; [|discriminate].
  apply resource_get_string_Some in Hv as (db & s & qn & e & ? & ? & ? & ? & ? & <-).
  intros Hb. exists db, s, qn, e. repeat split; auto.
  destruct (parse_long (value e)) as [n|].
  - left. exists n. split; [reflexivity|]. intros ->. discriminate.
  - right. split; [reflexivity|]. destruct (is_true_word (value e)); [reflexivity|].
    destruct (is_false_word (value e)); discriminate.
Qed.

(** ** Where a loose component is bound *)

Lemma kind_at_fits use_class cd cn cls :
  match kind_at use_class cd cn cls with
  | BySkip | ByMismatch => ¬ component_fits use_class cd cn cls
  | _ => component_fits use_class cd cn cls
  end.
Proof.
  pose proof (kind_at_facts use_class cd cn cls) as Hf. unfold component_fits.
  destruct (kind_at use_class cd cn cls) eqn:Hk; try tauto.
  - destruct Hf as (Hty & Hb & Hn). intros [Hw|[He|Hc]]; [congruence|contradiction|].
    unfold kind_at in Hk. rewrite Hty in Hk.
    destruct (strcmp_eq (name cd) (name cn)); [discriminate|].
    destruct Hc as (-> & cc & Hh & Hcc). destruct cls as [|cc' cls]; [discriminate|].
    simpl in *. inversion Hh; subst cc'. unfold strcmp_eq in Hk.
    rewrite Hcc, String.eqb_refl in Hk. discriminate.
  - destruct Hf as (Hty & Hb & Hn & Hc). intros [Hw|[He|Hc']]; [congruence|contradiction|tauto].
Qed.

Lemma drop_S_tail {A} (l : list A) k : drop (S k) l = drop k (tail l).
Proof. destruct l; simpl; [by rewrite drop_nil|reflexivity]. Qed.

Section FirstFit.
Variable use_class : bool.

Lemma align_skipped_position names :
  ∀ cls db M p,
    align use_class names cls db = Some M →
    M !! p = Some MF_SKIPPED →
    ∃ cd cn,
      db !! (p - count_occ Z.eq_dec (take p M) MF_SKIPPED)%nat = Some cd
      ∧ names !! p = Some cn
      ∧ type cd = CT_NORMAL ∧ binding_type cd = BT_LOOSE
      ∧ ¬ component_fits use_class cd cn (drop p cls).
Proof.
  induction names as [|cn names IH]; intros cls db M p H Hp.
  - apply align_nil_inv in H as (_ & -> & _). discriminate.
  - apply align_cons_inv in H as (cd & db' & M' & -> & _ & Hk & -> & H).
    pose proof (cell_of_pass_skipped _ cd Hk) as Hs.
    pose proof (kind_at_fits use_class cd cn cls) as Hfit.
    pose proof (kind_at_facts use_class cd cn cls) as Hf.
    destruct p as [|p]; simpl in Hp.
    + injection Hp as Hp. apply Hs in Hp. rewrite Hp in *.
      exists cd, cn. simpl. rewrite drop_0. tauto.
    + destruct (IH _ _ _ p H Hp) as (cd' & cn' & Hd & Hn & Hrest).
      exists cd', cn'. split; [|split; [exact Hn|]].
      * assert (Hle : (count_occ Z.eq_dec (take p M') MF_SKIPPED ≤ p)%nat).
        { etransitivity; [apply count_occ_bound|]. rewrite length_take. lia. }
        simpl take.
        destruct (kind_at use_class cd cn cls) eqn:Hkind; try congruence;
          try (rewrite count_occ_cons_neq by (intros He; apply Hs in He; discriminate);
               replace (S p - count_occ Z.eq_dec (take p M') MF_SKIPPED)%nat
                 with (S (p - count_occ Z.eq_dec (take p M') MF_SKIPPED)) by lia;
               exact Hd).
        rewrite count_occ_cons_eq by reflexivity. exact Hd.
      * rewrite drop_S_tail. exact Hrest.
Qed.

Lemma align_single_loose cd :
  binding_type cd = BT_LOOSE →
  ∀ names cls,
    (use_class = true → length cls = length names) →
    is_Some (align use_class names cls [cd])
    ↔ ∃ names0 cn,
        names = names0 ++ [cn]
        ∧ component_fits use_class cd cn (drop (length names0) cls)
        ∧ ∀ p cp, names0 !! p = Some cp →
                  ¬ component_fits use_class cd cp (drop p cls).
Proof.
  intros Hb. induction names as [|cn names IH]; intros cls Hlen.
  - split; [intros [M HM]; discriminate|].
    intros (names0 & cn & H & _). by destruct names0.
  - assert (Hne : use_class = true → cls ≠ []).
    { intros Huc ->. specialize (Hlen Huc). discriminate. }
    assert (Hlen' : use_class = true → length (tail cls) = length names).
    { intros Huc. specialize (Hlen Huc). destruct cls; simpl in *; [discriminate|lia]. }
    rewrite align_cons_eq by exact Hne.
    pose proof (kind_at_fits use_class cd cn cls) as Hfit.
    pose proof (kind_at_facts use_class cd cn cls) as Hf.
    assert (Hdone : is_Some (align use_class names (tail cls) []) ↔ names = []).
    { destruct names; simpl.
      - split; [reflexivity|]. intros _.
        destruct use_class; simpl; [|eauto].
        specialize (Hlen' eq_refl). destruct (tail cls); [eauto|discriminate].
      - split; [|discriminate]. destruct (use_class && _); intros [? ?]; discriminate. }
    assert (Hfits : component_fits use_class cd cn cls →
      ((∃ names0 cn0, cn :: names = names0 ++ [cn0]
          ∧ component_fits use_class cd cn0 (drop (length names0) cls)
          ∧ ∀ p cp, names0 !! p = Some cp → ¬ component_fits use_class cd cp (drop p cls))
       ↔ names = [])).
    { intros Hc. split.
      - intros ([|c0 names0] & cn0 & He & _ & Hno).
        + by injection He.
        + injection He as <- _. exfalso. apply (Hno 0%nat cn eq_refl). exact Hc.
      - intros ->. exists [], cn. repeat split; [exact Hc|]. intros p cp Hp. discriminate. }
    destruct (kind_at use_class cd cn cls) eqn:Hkind.
    + rewrite fmap_is_Some, Hdone. symmetry. by apply Hfits.
    + rewrite fmap_is_Some, Hdone. symmetry. by apply Hfits.
    + rewrite fmap_is_Some, Hdone. symmetry. by apply Hfits.
    + rewrite fmap_is_Some, (IH (tail cls) Hlen'). split.
      * intros (names0 & cn0 & -> & Hc & Hno). exists (cn :: names0), cn0.
        repeat split.
        -- simpl length. rewrite drop_S_tail. exact Hc.
        -- intros [|p] cp Hp; simpl in Hp.
           ++ injection Hp as <-. rewrite drop_0. exact Hfit.
           ++ rewrite drop_S_tail. by apply Hno.
      * intros ([|c0 names0] & cn0 & He & Hc & Hno).
        -- injection He as <- _. contradiction.
        -- injection He as <- ->. exists names0, cn0. repeat split.
           ++ simpl length in Hc. rewrite drop_S_tail in Hc. exact Hc.
           ++ intros p cp Hp. specialize (Hno (S p) cp Hp).
              rewrite drop_S_tail in Hno. exact Hno.
    + destruct Hf as (_ & ? & _). congruence.
Qed.

End FirstFit.

(** Property X3.  A cell is [SKIPPED] only where the entry component
    waiting there (the one after the components bound before that
    position) is a name with a loose binding that equals neither the
    query name nor the query class at that position. *)
Theorem skipped_position_had_an_unfit_loose_component
    query_name query_class e M p :
  record_of query_name query_class e = Some M →
  M !! p = Some MF_SKIPPED →
  ∃ cd cn,
    components e !! (p - count_occ Z.eq_dec (take p M) MF_SKIPPED)%nat = Some cd
    ∧ components query_name !! p = Some cn
    ∧ type cd = CT_NORMAL ∧ binding_type cd = BT_LOOSE
    ∧ ¬ component_fits (use_class_of query_class) cd cn
          (drop p (class_components query_class)).
Proof. rewrite record_of_align. apply align_skipped_position. Qed.

(** Property X9.  The loop binds a loose component to the first query
    position it fits and never reconsiders: an entry with a single, loose
    component is accepted exactly when the first position the component
    fits is the last position of the query.  (So [*c] is not found for
    the query [c.c].) *)
Theorem single_loose_component_is_bound_to_its_first_fit
    query_name query_class e cd :
  components e = [cd] → binding_type cd = BT_LOOSE →
  query_wf query_name query_class →
  is_Some (record_of query_name query_class e)
  ↔ ∃ names0 cn,
      components query_name = names0 ++ [cn]
      ∧ component_fits (use_class_of query_class) cd cn
          (drop (length names0) (class_components query_class))
      ∧ ∀ p cp, names0 !! p = Some cp →
                ¬ component_fits (use_class_of query_class) cd cp
                    (drop p (class_components query_class)).
Proof.
  intros He Hb Hwf. rewrite record_of_align, He.
  apply align_single_loose; [exact Hb|]. by apply query_wf_class_length.
Qed.

(** Property X14.  When exactly one entry of the database aligns against
    the query, the match returns its value. *)
Theorem only_matching_entry_wins D1 D2 e query_name query_class :
  (∀ x, x ∈ D1 ++ D2 → record_of query_name query_class x = None) →
  is_Some (record_of query_name query_class e) →
  xcb_xrm_match (D1 ++ e :: D2) query_name query_class = Some (value e).
Proof.
  intros Hnone [M HM]. unfold xcb_xrm_match, best_match_of.
  rewrite entries_loop_app, (entries_loop_none _ _ D1), entries_loop_cons
    by (intros x Hx; apply Hnone, elem_of_app; auto).
  rewrite (match_step_first _ _ _ _ HM), (entries_loop_none _ _ D2); [reflexivity|].
  intros x Hx. apply Hnone, elem_of_app. auto.
Qed.

(** ** The further properties at sample inputs *)

Lemma record_cells_hold_one_kind_witness :
  length [MF_SKIPPED; Z.lor MF_PRECEDING_LOOSE MF_NAME; MF_NAME]
  = xcb_xrm_entry_num_components query_a_b_c
  ∧ Forall (λ f, f ∈ record_cells)
      [MF_SKIPPED; Z.lor MF_PRECEDING_LOOSE MF_NAME; MF_NAME].
Proof.
  apply (record_cells_hold_one_kind query_a_b_c None entry_any_b_c). reflexivity.
Defined.

Lemma record_skips_complete_the_entry_witness :
  (length (components entry_any_b_c)
   + count_occ Z.eq_dec [MF_SKIPPED; Z.lor MF_PRECEDING_LOOSE MF_NAME; MF_NAME] MF_SKIPPED
   = xcb_xrm_entry_num_components query_a_b_c)%nat
  ∧ (length (components entry_any_b_c) ≤ xcb_xrm_entry_num_components query_a_b_c)%nat.
Proof.
  apply (record_skips_complete_the_entry query_a_b_c None entry_any_b_c). reflexivity.
Defined.

Lemma name_only_query_never_marks_class_witness :
  Forall (λ f, has_flag f MF_CLASS = false)
    [MF_SKIPPED; Z.lor MF_PRECEDING_LOOSE MF_NAME; MF_NAME].
Proof.
  apply (name_only_query_never_marks_class query_a_b_c entry_any_b_c). reflexivity.
Defined.

Lemma leading_tight_component_sits_at_position_0_witness :
  ∃ cn f,
    head (components query_a_b_c) = Some cn
    ∧ [MF_NAME; MF_WILDCARD; MF_NAME] !! 0%nat = Some f
    ∧ matched_flag f = true ∧ has_flag f MF_SKIPPED = false
    ∧ has_flag f MF_PRECEDING_LOOSE = false
    ∧ component_fits (use_class_of None) (tight "a") cn (class_components None).
Proof.
  apply (leading_tight_component_sits_at_position_0 query_a_b_c None entry_a_any_c
           (tight "a") [tight_any; tight "c"]); reflexivity.
Defined.

Lemma accepted_entries_are_spec_aligned_witness :
  spec_aligned (use_class_of None) (components entry_any_b_c) (components query_a_b_c)
    (class_components None).
Proof.
  apply (accepted_entries_are_spec_aligned query_a_b_c None entry_any_b_c
           [MF_SKIPPED; Z.lor MF_PRECEDING_LOOSE MF_NAME; MF_NAME]).
  reflexivity.
Defined.

Lemma tight_entries_are_accepted_iff_spec_aligned_witness :
  is_Some (record_of query_a_b_c None entry_a_any_c)
  ↔ spec_aligned (use_class_of None) (components entry_a_any_c) (components query_a_b_c)
      (class_components None).
Proof.
  apply (tight_entries_are_accepted_iff_spec_aligned query_a_b_c None entry_a_any_c).
  - intros qc Hqc. discriminate Hqc.
  - repeat constructor.
Defined.

Lemma wildcard_entries_match_every_query_of_their_length_witness :
  record_of query_a_b_c None
    {| components := [tight_any; loose_any; tight_any]; value := "w" |}
  = Some [MF_WILDCARD; Z.lor MF_PRECEDING_LOOSE MF_WILDCARD; MF_WILDCARD].
Proof.
  apply (wildcard_entries_match_every_query_of_their_length query_a_b_c None
           {| components := [tight_any; loose_any; tight_any]; value := "w" |}).
  - intros qc Hqc. discriminate Hqc.
  - repeat constructor.
  - reflexivity.
Defined.

Lemma comparisons_fail_both_ways_iff_records_equal_witness :
  (__match_compare 3 (match_of entry_a_any_c [MF_NAME; MF_WILDCARD; MF_NAME])
     (match_of entry_any_b_c [MF_SKIPPED; Z.lor MF_PRECEDING_LOOSE MF_NAME; MF_NAME])
   = false
   ∧ __match_compare 3
       (match_of entry_any_b_c [MF_SKIPPED; Z.lor MF_PRECEDING_LOOSE MF_NAME; MF_NAME])
       (match_of entry_a_any_c [MF_NAME; MF_WILDCARD; MF_NAME])
     = false)
  ↔ [MF_NAME; MF_WILDCARD; MF_NAME]
    = [MF_SKIPPED; Z.lor MF_PRECEDING_LOOSE MF_NAME; MF_NAME].
Proof.
  apply (comparisons_fail_both_ways_iff_records_equal query_a_b_c None
           entry_a_any_c entry_any_b_c); reflexivity.
Defined.

Lemma equivalent_records_come_from_one_specifier_witness :
  Forall2 same_component (components entry_any_b_c)
    (components {| components := [loose "b"; tight "c"]; value := "9" |}).
Proof.
  apply (equivalent_records_come_from_one_specifier query_a_b_c None entry_any_b_c
           {| components := [loose "b"; tight "c"]; value := "9" |}
           [MF_SKIPPED; Z.lor MF_PRECEDING_LOOSE MF_NAME; MF_NAME]
           [MF_SKIPPED; Z.lor MF_PRECEDING_LOOSE MF_NAME; MF_NAME]).
  - reflexivity.
  - reflexivity.
  - intros [|[|[|p]]] Hp; reflexivity.
Defined.

Lemma unmatched_entry_is_ignored_witness :
  xcb_xrm_match ([entry_a_any_c] ++ entry_x_y :: [entry_any_b_c]) query_a_b_c None
  = xcb_xrm_match ([entry_a_any_c] ++ [entry_any_b_c]) query_a_b_c None.
Proof.
  apply (unmatched_entry_is_ignored [entry_a_any_c] [entry_any_b_c] entry_x_y). reflexivity.
Defined.

Lemma winner_is_not_beaten_by_later_entries_witness :
  ∃ D1 e D2 M,
    [entry_any_b_c; entry_a_any_c; entry_x_y] = D1 ++ e :: D2 ∧ value e = "1"%string
    ∧ record_of query_a_b_c None e = Some M
    ∧ (∀ x M', x ∈ D2 → record_of query_a_b_c None x = Some M' →
         __match_compare (xcb_xrm_entry_num_components query_a_b_c)
           (match_of e M) (match_of x M') = false)
    ∧ (∀ b0, best_match_of D1 query_a_b_c None = Some b0 →
         __match_compare (xcb_xrm_entry_num_components query_a_b_c) b0 (match_of e M)
         = true).
Proof.
  apply (winner_is_not_beaten_by_later_entries
           [entry_any_b_c; entry_a_any_c; entry_x_y] query_a_b_c None "1").
  reflexivity.
Defined.

Lemma get_long_other_than_sentinel_comes_from_an_entry_witness :
  ∃ db s query_name e,
    Some db_dpi = Some db ∧ Some "Xft.dpi"%string = Some s
    ∧ query_parse s true = Some query_name
    ∧ e ∈ db ∧ is_Some (record_of query_name (class_query query_parse None) e)
    ∧ parse_long (value e)
      = Some (xcb_xrm_resource_get_long query_parse (Some db_dpi) (Some "Xft.dpi") None).
Proof.
  apply (get_long_other_than_sentinel_comes_from_an_entry query_parse
           (Some db_dpi) (Some "Xft.dpi") None).
  vm_compute. discriminate.
Defined.

Lemma get_bool_true_comes_from_an_entry_witness :
  ∃ db s query_name e,
    Some db_dpi = Some db ∧ Some "Xft.dpi"%string = Some s
    ∧ query_parse s true = Some query_name
    ∧ e ∈ db ∧ is_Some (record_of query_name (class_query query_parse None) e)
    ∧ ((∃ n, parse_long (value e) = Some n ∧ n ≠ 0)
       ∨ (parse_long (value e) = None ∧ is_true_word (value e) = true)).
Proof.
  apply (get_bool_true_comes_from_an_entry query_parse
           (Some db_dpi) (Some "Xft.dpi") None).
  reflexivity.
Defined.

Lemma skipped_position_had_an_unfit_loose_component_witness :
  ∃ cd cn,
    components entry_any_b_c
      !! (0 - count_occ Z.eq_dec
                (take 0 [MF_SKIPPED; Z.lor MF_PRECEDING_LOOSE MF_NAME; MF_NAME])
                MF_SKIPPED)%nat = Some cd
    ∧ components query_a_b_c !! 0%nat = Some cn
    ∧ type cd = CT_NORMAL ∧ binding_type cd = BT_LOOSE
    ∧ ¬ component_fits (use_class_of None) cd cn (drop 0 (class_components None)).
Proof.
  apply (skipped_position_had_an_unfit_loose_component query_a_b_c None entry_any_b_c
           [MF_SKIPPED; Z.lor MF_PRECEDING_LOOSE MF_NAME; MF_NAME] 0);
    reflexivity.
Defined.

Lemma single_loose_component_is_bound_to_its_first_fit_witness :
  is_Some (record_of query_a_b_c None entry_any_c)
  ↔ ∃ names0 cn,
      components query_a_b_c = names0 ++ [cn]
      ∧ component_fits (use_class_of None) (loose "c") cn
          (drop (length names0) (class_components None))
      ∧ ∀ p cp, names0 !! p = Some cp →
                ¬ component_fits (use_class_of None) (loose "c") cp
                    (drop p (class_components None)).
Proof.
  apply (single_loose_component_is_bound_to_its_first_fit query_a_b_c None entry_any_c
           (loose "c")).
  - reflexivity.
  - reflexivity.
  - intros qc Hqc. discriminate Hqc.
Defined.

Lemma only_matching_entry_wins_witness :
  xcb_xrm_match ([entry_x_y] ++ entry_any_c :: [entry_x_y]) query_a_b_c None
  = Some (value entry_any_c).
Proof.
  apply (only_matching_entry_wins [entry_x_y] [entry_x_y] entry_any_c query_a_b_c None).
  - intros x Hx. apply elem_of_app in Hx as [Hx|Hx];
      apply list_elem_of_singleton in Hx; subst x; reflexivity.
  - exists [MF_SKIPPED; MF_SKIPPED; Z.lor MF_PRECEDING_LOOSE MF_NAME]. reflexivity.
Defined.

Lemma match_compare_succeeds_at_first_win_of_candidate_witness :
  ∃ p, (p < 3)%nat
       ∧ beats ([MF_SKIPPED; Z.lor MF_PRECEDING_LOOSE MF_NAME; MF_NAME] !!! p)
           ([MF_NAME; MF_WILDCARD; MF_NAME] !!! p) = true
       ∧ ∀ q, (q < p)%nat →
              beats ([MF_SKIPPED; Z.lor MF_PRECEDING_LOOSE MF_NAME; MF_NAME] !!! q)
                ([MF_NAME; MF_WILDCARD; MF_NAME] !!! q) = false.
Proof.
  apply (match_compare_succeeds_at_first_win_of_candidate 3
           (match_of entry_a_any_c [MF_NAME; MF_WILDCARD; MF_NAME])
           (match_of entry_any_b_c [MF_SKIPPED; Z.lor MF_PRECEDING_LOOSE MF_NAME; MF_NAME])).
  reflexivity.
Defined.

(** The entry [*c] against the queries [c.c] and [a.c]. *)
Example loose_component_first_fit_samples :
  record_of {| components := [tight "c"; tight "c"]; value := EmptyString |} None
    entry_any_c = None
  ∧ record_of {| components := [tight "a"; tight "c"]; value := EmptyString |} None
      entry_any_c = Some [MF_SKIPPED; Z.lor MF_PRECEDING_LOOSE MF_NAME].
Proof. split; reflexivity. Qed.
